(** * Lovefield: memory table and query engine

    A shallow embedding of [lib/backstore/memory_table.js] and
    [lib/proc/default_query_engine.js], together with a model of the
    relational operators that the end-to-end select tests exercise. *)

From Stdlib Require OrderedTypeEx.
From stdpp Require Import gmap strings sorting.

Local Open Scope Z_scope.

(** ** Values and rows *)

(** Modelled from the spec: a cell of a row payload, a scalar or the
    absent marker.  Numbers are kept to integers; floating point,
    timestamps and blobs are left out. *)
Inductive Value :=
  | VInt (z : Z)
  | VText (s : string)
  | VBool (b : bool)
  | VAbsent.

#[global] Instance Value_eq_dec : EqDecision Value.
Proof. solve_decision. Defined.

#[global] Instance Value_inhabited : Inhabited Value := populate VAbsent.

(** Modelled from the spec: [lf.Row], which the sources only declare
    forward; an integer identity, [id()], and a payload addressed by
    column name. *)
Module Row.
Record t := mk { id : Z; payload : gmap string Value }.
End Row.

#[global] Instance Row_eq_dec : EqDecision Row.t.
Proof. solve_decision. Defined.

(** ** Promises

    Modelled from the spec: the storage operations answer with
    [goog.Promise.resolve(...)]; a deferred result has one success and
    one failure path. *)
Inductive Promise (A : Type) :=
  | resolve (a : A)
  | reject (reason : string).
Arguments resolve {A} a.
Arguments reject {A} reason.

(** ** [goog.structs.Map<number, !lf.Row>]

    Modelled from the spec: the identity-keyed association of a table,
    with the operations of the Closure map that the memory table
    calls.  [getValues]
    lists the values in the order of the keys of the model, which is not
    the order Closure keeps; no statement below depends on it. *)
Module structs_Map.
Abbreviation t := (gmap Z Row.t).
Definition get (m : t) (key : Z) : option Row.t := m !! key.
Definition set (m : t) (key : Z) (value : Row.t) : t := <[key := value]> m.
Definition remove (m : t) (key : Z) : t := delete key m.
Definition clear (m : t) : t := ∅.
Definition getCount (m : t) : nat := size m.
Definition getValues (m : t) : list Row.t := (map_to_list m).*2.
End structs_Map.

(** ** [lf.backstore.MemoryTable] *)
Module MemoryTable.

Record t := mk { data_ : structs_Map.t }.

(** [new lf.backstore.MemoryTable()] *)
Definition new : t := mk ∅.

(** [getAll_]: all the rows in the table. *)
Definition getAll_ (this : t) : Promise (list Row.t) :=
  resolve (structs_Map.getValues (data_ this)).

(** [get(ids)]: the empty array is treated as "return all rows". *)
Definition get (this : t) (ids : list Z) : Promise (list Row.t) :=
  if decide (length ids = 0%nat) then getAll_ this
  else
    let results :=
      foldl (λ results id,
               match structs_Map.get (data_ this) id with
               | Some row => results ++ [row]
               | None => results
               end) [] ids in
    resolve results.

(** [put(rows)]: every row is stored under its own identity. *)
Definition put (this : t) (rows : list Row.t) : t * Promise unit :=
  (mk (foldl (λ data row, structs_Map.set data (Row.id row) row)
             (data_ this) rows),
   resolve ()).

(** [remove(ids)] *)
Definition remove (this : t) (ids : list Z) : t * Promise unit :=
  if decide (length ids = 0%nat ∨ length ids = structs_Map.getCount (data_ this))
  then (mk (structs_Map.clear (data_ this)), resolve ())
  else (mk (foldl (λ data id, structs_Map.remove data id) (data_ this) ids),
        resolve ()).

(** A row is stored when some key of the map holds it. *)
Definition stored (this : t) (r : Row.t) : Prop :=
  ∃ k, data_ this !! k = Some r.

(** Every row sits under its own identity; [put] is the only way in. *)
Definition keyed (this : t) : Prop :=
  ∀ k r, data_ this !! k = Some r → Row.id r = k.

End MemoryTable.


(** ** Storage and deferred computations *)

(** Modelled from the spec: the storage an execution context refers to,
    the memory tables of the database by name. *)
Abbreviation Store := (gmap string MemoryTable.t).

#[global] Instance MemoryTable_inhabited : Inhabited MemoryTable.t :=
  populate MemoryTable.new.

(** Modelled from the spec: a computation of the engine is handed the
    storage, settles with a result or fails, and hands the storage
    back; a failure ends the computations that follow. *)
Definition Run (A : Type) : Type := Store → Promise A * Store.

#[global] Instance Run_ret : MRet Run := λ A a s, (resolve a, s).

#[global] Instance Run_bind : MBind Run := λ A B f m s,
  match m s with
  | (resolve a, s') => f a s'
  | (reject e, s') => (reject e, s')
  end.

(** The storage interface as the engine consumes it: [get(ids)] on the
    table of that name (a table never written to is empty). *)
Definition tableGet (table : string) (ids : list Z) : Run (list Row.t) :=
  λ s, (MemoryTable.get (s !!! table) ids, s).

(** ** [lf.proc.DefaultQueryEngine]

    The engine holds its two factories and calls their [create]; for
    all the engine knows, a [create] may fail or reach the storage. *)
Module DefaultQueryEngine.
Section engine.
Context {Query LogicalQueryPlanNode PhysicalQueryPlan : Type}.

(** [lf.proc.LogicalPlanFactory], by its [create]. *)
Record LogicalPlanFactory := LogicalFactory
  { logical_create : Query → Run LogicalQueryPlanNode }.

(** [lf.proc.PhysicalPlanFactory], by its [create]. *)
Record PhysicalPlanFactory := PhysicalFactory
  { physical_create : LogicalQueryPlanNode → Run PhysicalQueryPlan }.

Record t := mk
  { logicalPlanFactory_ : LogicalPlanFactory;
    physicalPlanFactory_ : PhysicalPlanFactory }.

Definition convertToLogicalPlan_ (this : t) (query : Query)
  : Run LogicalQueryPlanNode :=
  logical_create (logicalPlanFactory_ this) query.

Definition convertToPhysicalPlan_ (this : t)
    (logicalQueryPlan : LogicalQueryPlanNode) : Run PhysicalQueryPlan :=
  physical_create (physicalPlanFactory_ this) logicalQueryPlan.

Definition getPlan (this : t) (query : Query) : Run PhysicalQueryPlan :=
  logicalQueryPlan ← convertToLogicalPlan_ this query;
  convertToPhysicalPlan_ this logicalQueryPlan.

End engine.
Arguments LogicalPlanFactory : clear implicits.
Arguments PhysicalPlanFactory : clear implicits.
Arguments t : clear implicits.
End DefaultQueryEngine.

(** ** Columns, predicates and query descriptions

    The planner and the operators of the engine are not among the
    sources at hand: what follows, up to the running of a select, is
    modelled from the design of the engine.  Of its operators Distinct
    and the three that write are left out, of its aggregators AVG and
    STDDEV, which are floating point. *)

(** Modelled from the spec: a column ([lf.schema.Column]), with its name
    and the table it belongs to. *)
Record Column := mkColumn { col_table : string; col_name : string }.

#[global] Instance Column_eq_dec : EqDecision Column.
Proof. solve_decision. Defined.

(** Modelled from the spec: [lf.Order], the direction of an order-by. *)
Inductive Order := ASC | DESC.

(** Modelled from the spec: the comparisons of a leaf predicate ([eq],
    [gt] and the like on a column). *)
Inductive Comparator := EQ | NEQ | LT | LTE | GT | GTE.

(** Modelled from the spec: the predicate classes are not part of the
    sources at hand.  A predicate is a tree of comparison and boolean
    nodes; a leaf compares a column with a literal or, for a join
    predicate, with another column. *)
Inductive Predicate :=
  | ValuePredicate (c : Column) (op : Comparator) (v : Value)
  | JoinPredicate (a : Column) (op : Comparator) (b : Column)
  | And (p q : Predicate)
  | Or (p q : Predicate)
  | Not (p : Predicate).

(** Modelled from the spec: the aggregators of [lf.fn], each on a column
    and maybe on its distinct values only; COUNT on the column [*]
    counts rows. *)
Inductive AggFn := MIN | MAX | SUM | COUNT.

Record Aggregator := mkAggregator
  { agg_fn : AggFn; agg_col : Column; agg_distinct : bool }.

(** Modelled from the spec: the select flavour of the query description
    (the other three flavours write to the store and are left out).  The
    tables of the from list are one or more; no projected column and no
    aggregator stands for "all the columns". *)
Record SelectContext := mkSelect
  { from : string;
    from_more : list string;
    joins : list (string * Predicate);
    where_ : option Predicate;
    columns : list Column;
    aggregators : list Aggregator;
    orderBy : list (Column * Order);
    skip : option nat;
    limit : option nat }.

(** Modelled from the spec: a row of a relation as it flows through the
    plan, one payload per table in scope, keyed by the table name. *)
Abbreviation RelationEntry := (gmap string (gmap string Value)).
Abbreviation Relation := (list RelationEntry).

(** ** Comparing values *)

(** Modelled from the spec: values of different kinds are ordered by
    kind, the absent marker first. *)
Definition rank (v : Value) : Z :=
  match v with VAbsent => 0 | VBool _ => 1 | VInt _ => 2 | VText _ => 3 end.

(** Modelled from the spec: the order on values; the absent marker is
    below any value. *)
Definition compareValue (a b : Value) : comparison :=
  match a, b with
  | VInt x, VInt y => x ?= y
  | VText x, VText y => String.compare x y
  | VBool x, VBool y => Bool.compare x y
  | _, _ => rank a ?= rank b
  end.

(** Modelled from the spec: what a comparison asks of two values. *)
Definition holds (op : Comparator) (c : comparison) : bool :=
  match op, c with
  | EQ, Eq | NEQ, Lt | NEQ, Gt | LT, Lt | LTE, Lt | LTE, Eq
  | GT, Gt | GTE, Gt | GTE, Eq => true
  | _, _ => false
  end.

(** Modelled from the spec: the value of a column in a row, absent when
    the row has no such table or the payload no such column. *)
Definition getVal (e : RelationEntry) (c : Column) : Value :=
  default VAbsent (e !! col_table c ≫= λ payload, payload !! col_name c).

(** Modelled from the spec: [evaluate(row)] of a predicate node. *)
Fixpoint evaluate (p : Predicate) (e : RelationEntry) : bool :=
  match p with
  | ValuePredicate c op v => holds op (compareValue (getVal e c) v)
  | JoinPredicate a op b => holds op (compareValue (getVal e a) (getVal e b))
  | And p q => evaluate p e && evaluate q e
  | Or p q => evaluate p e || evaluate q e
  | Not p => negb (evaluate p e)
  end.

(** Modelled from the spec: the columns a predicate refers to. *)
Fixpoint predColumns (p : Predicate) : list Column :=
  match p with
  | ValuePredicate c _ _ => [c]
  | JoinPredicate a _ b => [a; b]
  | And p q | Or p q => predColumns p ++ predColumns q
  | Not p => predColumns p
  end.

(** Modelled from the spec: the predicates a conjunction is made of. *)
Fixpoint conjuncts (p : Predicate) : list Predicate :=
  match p with
  | And p q => conjuncts p ++ conjuncts q
  | _ => [p]
  end.

(** ** The logical plan *)

(** Modelled from the spec: the logical nodes a select is planned
    with; [LProject] carries the aggregators of the projection. *)
Inductive LogicalNode :=
  | LTableAccess (table : string)
  | LSelect (p : Predicate) (child : LogicalNode)
  | LProject (cols : list Column) (aggs : list Aggregator) (child : LogicalNode)
  | LCrossProduct (l r : LogicalNode)
  | LJoin (p : Predicate) (l r : LogicalNode)
  | LOrderBy (specs : list (Column * Order)) (child : LogicalNode)
  | LSkip (n : nat) (child : LogicalNode)
  | LLimit (n : nat) (child : LogicalNode).

(** Modelled from the spec: the tables a tree reads, left to right. *)
Fixpoint tables (t : LogicalNode) : list string :=
  match t with
  | LTableAccess table => [table]
  | LCrossProduct l r | LJoin _ l r => tables l ++ tables r
  | LSelect _ c | LProject _ _ c | LOrderBy _ c | LSkip _ c | LLimit _ c =>
      tables c
  end.

(** Modelled from the spec: a table access per table of the from list,
    joined left-deep by cross products; an explicit join is a join node
    with its own predicate. *)
Definition accessTree (q : SelectContext) : LogicalNode :=
  foldl (λ acc '(table, p), LJoin p acc (LTableAccess table))
        (foldl (λ acc table, LCrossProduct acc (LTableAccess table))
               (LTableAccess (from q)) (from_more q))
        (joins q).

(** Modelled from the spec: the initial tree of a select.  Above the
    accesses the where predicate as one select, then the projection, the
    ordering, skip and limit, the limit outermost. *)
Definition initialTree (q : SelectContext) : LogicalNode :=
  let selected :=
    match where_ q with
    | Some p => LSelect p (accessTree q)
    | None => accessTree q
    end in
  let projected := LProject (columns q) (aggregators q) selected in
  let ordered :=
    match orderBy q with
    | [] => projected
    | specs => LOrderBy specs projected
    end in
  let skipped :=
    match skip q with Some n => LSkip n ordered | None => ordered end in
  match limit q with Some n => LLimit n skipped | None => skipped end.

(** Modelled from the spec: the side of a product a column comes from;
    when both sides carry the table, the merged row shows the left
    one. *)
Inductive Side := Left | Right.

#[global] Instance Side_eq_dec : EqDecision Side.
Proof. solve_decision. Defined.

Definition sideOf (c : Column) (l r : LogicalNode) : option Side :=
  if bool_decide (col_table c ∈ tables l) then Some Left
  else if bool_decide (col_table c ∈ tables r) then Some Right
  else None.

(** Modelled from the spec: all the columns of a predicate come from
    one child. *)
Definition allFrom (side : Side) (p : Predicate) (l r : LogicalNode) : bool :=
  forallb (λ c, bool_decide (sideOf c l r = Some side)) (predColumns p).

(** Modelled from the spec: whether [p] finds, below the selects on top
    of [t], a product with one side that has all its columns. *)
Fixpoint sinks (p : Predicate) (t : LogicalNode) : bool :=
  match t with
  | LSelect _ c => sinks p c
  | LCrossProduct l r | LJoin _ l r => allFrom Left p l r || allFrom Right p l r
  | _ => false
  end.

(** Modelled from the spec, rewrite rule 1: a select goes below a cross
    product or a join when all its columns come from one child. *)
Fixpoint pushSelect (p : Predicate) (t : LogicalNode) : LogicalNode :=
  match t with
  | LSelect q c =>
      if sinks p c then LSelect q (pushSelect p c) else LSelect p t
  | LCrossProduct l r =>
      if allFrom Left p l r then LCrossProduct (pushSelect p l) r
      else if allFrom Right p l r then LCrossProduct l (pushSelect p r)
      else LSelect p t
  | LJoin q l r =>
      if allFrom Left p l r then LJoin q (pushSelect p l) r
      else if allFrom Right p l r then LJoin q l (pushSelect p r)
      else LSelect p t
  | _ => LSelect p t
  end.

(** Modelled from the spec, rewrite rule 1 over a tree: a select of a
    conjunction is split into nested selects, and each is pushed. *)
Fixpoint pushDownSelects (t : LogicalNode) : LogicalNode :=
  match t with
  | LTableAccess table => LTableAccess table
  | LSelect p c => foldr pushSelect (pushDownSelects c) (conjuncts p)
  | LProject cols aggs c => LProject cols aggs (pushDownSelects c)
  | LCrossProduct l r => LCrossProduct (pushDownSelects l) (pushDownSelects r)
  | LJoin p l r => LJoin p (pushDownSelects l) (pushDownSelects r)
  | LOrderBy specs c => LOrderBy specs (pushDownSelects c)
  | LSkip n c => LSkip n (pushDownSelects c)
  | LLimit n c => LLimit n (pushDownSelects c)
  end.

(** Modelled from the spec: two columns from different sides. *)
Definition differentSides (a b : Column) (l r : LogicalNode) : bool :=
  match sideOf a l r, sideOf b l r with
  | Some Left, Some Right | Some Right, Some Left => true
  | _, _ => false
  end.

(** Modelled from the spec, rewrite rule 2: a select of an equality of
    two columns right above a cross product, with the columns from
    different sides, becomes a join. *)
Fixpoint inferJoins (t : LogicalNode) : LogicalNode :=
  match t with
  | LTableAccess table => LTableAccess table
  | LSelect p c =>
      match p, inferJoins c with
      | JoinPredicate a EQ b, LCrossProduct l r =>
          if differentSides a b l r then LJoin p l r
          else LSelect p (LCrossProduct l r)
      | _, c' => LSelect p c'
      end
  | LProject cols aggs c => LProject cols aggs (inferJoins c)
  | LCrossProduct l r => LCrossProduct (inferJoins l) (inferJoins r)
  | LJoin p l r => LJoin p (inferJoins l) (inferJoins r)
  | LOrderBy specs c => LOrderBy specs (inferJoins c)
  | LSkip n c => LSkip n (inferJoins c)
  | LLimit n c => LLimit n (inferJoins c)
  end.

(** Modelled from the spec: the columns the predicates of a tree refer
    to. *)
Fixpoint treeColumns (t : LogicalNode) : list Column :=
  match t with
  | LTableAccess _ => []
  | LSelect p c => predColumns p ++ treeColumns c
  | LJoin p l r => predColumns p ++ treeColumns l ++ treeColumns r
  | LCrossProduct l r => treeColumns l ++ treeColumns r
  | LProject _ _ c | LOrderBy _ c | LSkip _ c | LLimit _ c => treeColumns c
  end.

(** Modelled from the spec: a projection on the needed columns right
    above every table access that has some. *)
Fixpoint narrow (needed : list Column) (t : LogicalNode) : LogicalNode :=
  match t with
  | LTableAccess table =>
      match filter (λ c, col_table c = table) needed with
      | [] => LTableAccess table
      | cols => LProject cols [] (LTableAccess table)
      end
  | LSelect p c => LSelect p (narrow needed c)
  | LProject cols aggs c => LProject cols aggs (narrow needed c)
  | LCrossProduct l r => LCrossProduct (narrow needed l) (narrow needed r)
  | LJoin p l r => LJoin p (narrow needed l) (narrow needed r)
  | LOrderBy specs c => LOrderBy specs (narrow needed c)
  | LSkip n c => LSkip n (narrow needed c)
  | LLimit n c => LLimit n (narrow needed c)
  end.

(** Modelled from the spec, rewrite rule 3: below a projection that
    names its columns, every table access keeps only the columns that
    the projection, a predicate or an order-by above it refers to. *)
Fixpoint pushProjections (keep : list Column) (t : LogicalNode) : LogicalNode :=
  match t with
  | LLimit n c => LLimit n (pushProjections keep c)
  | LSkip n c => LSkip n (pushProjections keep c)
  | LOrderBy specs c => LOrderBy specs (pushProjections (specs.*1 ++ keep) c)
  | LProject cols aggs c =>
      match cols, aggs with
      | [], [] => t
      | _, _ =>
          LProject cols aggs
            (narrow (cols ++ (agg_col <$> aggs) ++ keep ++ treeColumns c) c)
      end
  | _ => t
  end.

(** Modelled from the spec: [lf.proc.LogicalPlanFactory].  The rewrite
    rules run in the order 1, 2, 3, each in one pass over the tree (the
    optional constant folding is left out). *)
Definition LogicalPlanFactory_create (q : SelectContext) : LogicalNode :=
  pushProjections [] (inferJoins (pushDownSelects (initialTree q))).

(** ** The physical plan *)

(** Modelled from the spec: what the physical planner reads in
    [lf.Global], which columns have an index and the row counts that
    are known. *)
Record Global := mkGlobal
  { indexed : Column → bool;
    knownSize : string → option nat }.

(** Modelled from the spec: the ways to run a join; [lc] is the join
    column of the left side, [rc] the one of the right side. *)
Inductive JoinStrategy :=
  | IndexNestedLoop (lc rc : Column)
  | HashJoin (build : Side) (lc rc : Column)
  | NestedLoop.

(** Modelled from the spec: the physical nodes, one per logical node
    but for the bounded take that stands for an adjacent skip and
    limit. *)
Inductive PhysicalNode :=
  | PTableAccess (table : string)
  | PSelect (p : Predicate) (child : PhysicalNode)
  | PProject (cols : list Column) (aggs : list Aggregator) (child : PhysicalNode)
  | PCrossProduct (l r : PhysicalNode)
  | PJoin (strategy : JoinStrategy) (p : Predicate) (l r : PhysicalNode)
  | POrderBy (specs : list (Column * Order)) (child : PhysicalNode)
  | PSkip (n : nat) (child : PhysicalNode)
  | PLimit (n : nat) (child : PhysicalNode)
  | PTake (skipped taken : nat) (child : PhysicalNode).

(** Modelled from the spec: the number of rows of a subtree, at most,
    when the sizes of its tables are known. *)
Fixpoint knownRows (g : Global) (t : LogicalNode) : option nat :=
  match t with
  | LTableAccess table => knownSize g table
  | LCrossProduct l r | LJoin _ l r =>
      n ← knownRows g l; m ← knownRows g r; Some (n * m)%nat
  | LSelect _ c | LProject _ _ c | LOrderBy _ c | LSkip _ c | LLimit _ c =>
      knownRows g c
  end.

(** Modelled from the spec: the join columns, the one of the left side
    first. *)
Definition orient (a b : Column) (l r : LogicalNode) : option (Column * Column) :=
  match sideOf a l r, sideOf b l r with
  | Some Left, Some Right => Some (a, b)
  | Some Right, Some Left => Some (b, a)
  | _, _ => None
  end.

(** Modelled from the spec: the join strategy.  Index nested loop when
    both join columns have an index; else a hash join built on the
    smaller side; a nested loop when no size is known (or when the
    predicate is no equality of columns of the two sides). *)
Definition chooseStrategy (g : Global) (p : Predicate) (l r : LogicalNode)
  : JoinStrategy :=
  match p with
  | JoinPredicate a EQ b =>
      match orient a b l r with
      | Some (lc, rc) =>
          if indexed g lc && indexed g rc then IndexNestedLoop lc rc
          else match knownRows g l, knownRows g r with
               | Some n, Some m =>
                   HashJoin (if bool_decide (n ≤ m)%nat then Left else Right) lc rc
               | Some _, None => HashJoin Left lc rc
               | None, Some _ => HashJoin Right lc rc
               | None, None => NestedLoop
               end
      | None => NestedLoop
      end
  | _ => NestedLoop
  end.

(** Modelled from the spec: [lf.proc.PhysicalPlanFactory]; the tree is
    walked and its shape kept.  No node reads an ordered index, so an
    order-by is always a sort. *)
Fixpoint PhysicalPlanFactory_create (g : Global) (t : LogicalNode) : PhysicalNode :=
  match t with
  | LTableAccess table => PTableAccess table
  | LSelect p c => PSelect p (PhysicalPlanFactory_create g c)
  | LProject cols aggs c => PProject cols aggs (PhysicalPlanFactory_create g c)
  | LCrossProduct l r =>
      PCrossProduct (PhysicalPlanFactory_create g l) (PhysicalPlanFactory_create g r)
  | LJoin p l r =>
      PJoin (chooseStrategy g p l r) p
            (PhysicalPlanFactory_create g l) (PhysicalPlanFactory_create g r)
  | LOrderBy specs c => POrderBy specs (PhysicalPlanFactory_create g c)
  | LSkip n c => PSkip n (PhysicalPlanFactory_create g c)
  | LLimit n c =>
      match c with
      | LSkip m c' => PTake m n (PhysicalPlanFactory_create g c')
      | _ => PLimit n (PhysicalPlanFactory_create g c)
      end
  end.

(** [new lf.proc.DefaultQueryEngine(global)]: the engine makes its two
    factories, the physical one from [global]. *)
Definition DefaultQueryEngine_new (global : Global)
  : DefaultQueryEngine.t SelectContext LogicalNode PhysicalNode :=
  DefaultQueryEngine.mk
    (DefaultQueryEngine.LogicalFactory (λ q, mret (LogicalPlanFactory_create q)))
    (DefaultQueryEngine.PhysicalFactory
       (λ t, mret (PhysicalPlanFactory_create global t))).

(** ** The physical operators *)

#[global] Instance Value_countable : Countable Value.
Proof.
  refine (inj_countable'
    (λ v, match v with
          | VInt z => inl (inl z) | VText s => inl (inr s)
          | VBool b => inr (inl b) | VAbsent => inr (inr ())
          end)
    (λ x, match x with
          | inl (inl z) => VInt z | inl (inr s) => VText s
          | inr (inl b) => VBool b | inr (inr _) => VAbsent
          end) _).
  by intros [].
Defined.

(** Modelled from the spec: table access gives every row of the table
    as [{t.name: row.payload}]. *)
Definition wrap (table : string) (r : Row.t) : RelationEntry :=
  {[ table := Row.payload r ]}.

(** Modelled from the spec: the per-table maps of two rows merged. *)
Definition merge (l r : RelationEntry) : RelationEntry := l ∪ r.

(** Modelled from the spec: the cartesian product, left rows outermost. *)
Definition crossProduct (L R : Relation) : Relation :=
  L ≫= λ l, merge l <$> R.

(** Modelled from the spec: the nested loop join. *)
Definition nestedLoop (p : Predicate) (L R : Relation) : Relation :=
  filter (λ e, evaluate p e) (crossProduct L R).

(** Modelled from the spec: the hash table (or the index) of a join,
    the rows of a relation under the value of their join column. *)
Definition buildTable (c : Column) (rel : Relation) : gmap Value Relation :=
  foldr (λ e tbl, <[getVal e c := e :: tbl !!! getVal e c]> tbl) ∅ rel.

(** Modelled from the spec: the hash join; the rows of the other side
    probe the table built on the build side. *)
Definition hashJoin (build : Side) (lc rc : Column) (L R : Relation) : Relation :=
  match build with
  | Right =>
      let tbl := buildTable rc R in
      L ≫= λ l, merge l <$> tbl !!! getVal l lc
  | Left =>
      let tbl := buildTable lc L in
      R ≫= λ r, (λ l, merge l r) <$> tbl !!! getVal r rc
  end.

(** Modelled from the spec: the index nested loop join; every left row
    looks its partners up in the index of the right side. *)
Definition indexNestedLoop (lc rc : Column) (L R : Relation) : Relation :=
  let index := buildTable rc R in
  L ≫= λ l, merge l <$> index !!! getVal l lc.

(** Modelled from the spec: a join is a cross product that keeps the
    tuples with equal join columns, whatever the strategy. *)
Definition join (strategy : JoinStrategy) (p : Predicate) (L R : Relation)
  : Relation :=
  match strategy with
  | IndexNestedLoop lc rc => indexNestedLoop lc rc L R
  | HashJoin build lc rc => hashJoin build lc rc L R
  | NestedLoop => nestedLoop p L R
  end.

(** Modelled from the spec: a row restricted to the given columns. *)
Definition restrict (cols : list Column) (e : RelationEntry) : RelationEntry :=
  map_imap (λ table payload,
              Some (filter (λ kv, mkColumn table kv.1 ∈ cols) payload)) e.

(** Modelled from the spec: the name an aggregator goes by in a result
    row, [MIN(maxSalary)] say. *)
Definition fnName (f : AggFn) : string :=
  match f with MIN => "MIN" | MAX => "MAX" | SUM => "SUM" | COUNT => "COUNT" end.

(** Modelled from the spec: the name of an aggregated column. *)
Definition aggName (a : Aggregator) : string :=
  let name := col_name (agg_col a) in
  fnName (agg_fn a) +:+ "(" +:+
  (if agg_distinct a then "DISTINCT(" +:+ name +:+ ")" else name) +:+ ")".

(** Modelled from the spec: the values an aggregator runs over; absent
    ones are skipped, and with [distinct] every value counts once. *)
Definition aggValues (a : Aggregator) (rel : Relation) : list Value :=
  let vs := filter (λ v, v ≠ VAbsent) ((λ e, getVal e (agg_col a)) <$> rel) in
  if agg_distinct a then remove_dups vs else vs.

(** Modelled from the spec: the reductions of MIN, MAX and SUM. *)
Definition least (vs : list Value) : Value :=
  match vs with
  | [] => VAbsent
  | v :: vs => foldl (λ m x, if compareValue x m is Lt then x else m) v vs
  end.

Definition greatest (vs : list Value) : Value :=
  match vs with
  | [] => VAbsent
  | v :: vs => foldl (λ m x, if compareValue x m is Gt then x else m) v vs
  end.

Definition total (vs : list Value) : Z :=
  foldr (λ v acc, match v with VInt z => z + acc | _ => acc end) 0 vs.

(** Modelled from the spec: the scalar of an aggregator over a whole
    relation.  COUNT of [*] counts rows, COUNT of a column skips absent
    values; over no value SUM and COUNT are 0, MIN and MAX absent. *)
Definition evalAggregator (a : Aggregator) (rel : Relation) : Value :=
  match agg_fn a with
  | MIN => least (aggValues a rel)
  | MAX => greatest (aggValues a rel)
  | SUM => VInt (total (aggValues a rel))
  | COUNT =>
      if decide (col_name (agg_col a) = "*") then VInt (Z.of_nat (length rel))
      else VInt (Z.of_nat (length (aggValues a rel)))
  end.

(** Modelled from the spec: a row annotated with the scalar of an
    aggregator, next to the columns of the aggregated table. *)
Definition annotate (a : Aggregator) (v : Value) (e : RelationEntry)
  : RelationEntry :=
  <[col_table (agg_col a) := <[aggName a := v]> (e !!! col_table (agg_col a))]> e.

Definition annotateAll (aggs : list Aggregator) (rel : Relation)
    (e : RelationEntry) : RelationEntry :=
  foldr (λ a e, annotate a (evalAggregator a rel) e) e aggs.

(** Modelled from the spec: projection.  Without aggregators every row
    is restricted to the columns (all of them when none is named); with
    aggregators only there is a single row of scalars; with both, every
    input row, restricted, is annotated with the scalars. *)
Definition project (cols : list Column) (aggs : list Aggregator)
    (rel : Relation) : Relation :=
  match aggs, cols with
  | [], [] => rel
  | [], _ => restrict cols <$> rel
  | _, [] => [annotateAll aggs rel ∅]
  | _, _ => (λ e, annotateAll aggs rel (restrict cols e)) <$> rel
  end.

(** Modelled from the spec: a comparison read in the direction of an
    order. *)
Definition directed (o : Order) (c : comparison) : comparison :=
  match o with ASC => c | DESC => CompOpp c end.

(** Modelled from the spec: the one lexicographic comparator of an
    order-by. *)
Fixpoint compareEntries (specs : list (Column * Order)) (a b : RelationEntry)
  : comparison :=
  match specs with
  | [] => Eq
  | (c, o) :: specs =>
      match directed o (compareValue (getVal a c) (getVal b c)) with
      | Eq => compareEntries specs a b
      | r => r
      end
  end.

(** Modelled from the spec: a row may stand before another. *)
Definition precedes (specs : list (Column * Order)) (a b : RelationEntry) : bool :=
  match compareEntries specs a b with Gt => false | _ => true end.

(** Modelled from the spec: the stable sort of an order-by; every row is
    put before the first row that it may stand before. *)
Fixpoint insertSorted {A} (le : A → A → bool) (x : A) (l : list A) : list A :=
  match l with
  | [] => [x]
  | y :: l' => if le x y then x :: l else y :: insertSorted le x l'
  end.

Definition stableSort {A} (le : A → A → bool) (l : list A) : list A :=
  foldr (insertSorted le) [] l.

(** Modelled from the spec: [execute] of a physical node. *)
Fixpoint execNode (n : PhysicalNode) : Run Relation :=
  match n with
  | PTableAccess table =>
      rows ← tableGet table [];
      mret (wrap table <$> rows)
  | PSelect p c =>
      rel ← execNode c;
      mret (filter (λ e, evaluate p e) rel)
  | PProject cols aggs c =>
      rel ← execNode c;
      mret (project cols aggs rel)
  | PCrossProduct l r =>
      L ← execNode l;
      R ← execNode r;
      mret (crossProduct L R)
  | PJoin strategy p l r =>
      L ← execNode l;
      R ← execNode r;
      mret (join strategy p L R)
  | POrderBy specs c =>
      rel ← execNode c;
      mret (stableSort (precedes specs) rel)
  | PSkip n c =>
      rel ← execNode c;
      mret (drop n rel)
  | PLimit n c =>
      rel ← execNode c;
      mret (take n rel)
  | PTake skipped taken c =>
      rel ← execNode c;
      mret (take taken (drop skipped rel))
  end.

(** Modelled from the spec: the tables in scope of a plan. *)
Fixpoint planTables (n : PhysicalNode) : list string :=
  match n with
  | PTableAccess table => [table]
  | PCrossProduct l r | PJoin _ _ l r => planTables l ++ planTables r
  | PSelect _ c | PProject _ _ c | POrderBy _ c | PSkip _ c | PLimit _ c
  | PTake _ _ c => planTables c
  end.

(** Modelled from the spec: a row of the result of a select, a flat map
    of columns when one table is in scope, else a map of maps keyed by
    table name. *)
Inductive ResultRow :=
  | FlatRow (payload : gmap string Value)
  | CompositeRow (e : RelationEntry).

(** Modelled from the spec: the shape of a result row, by the tables in
    scope. *)
Definition shape (scope : list string) (e : RelationEntry) : ResultRow :=
  match scope with
  | [table] => FlatRow (e !!! table)
  | _ => CompositeRow e
  end.

(** The cell of a column in a row of a result: [result[column]] on a
    flat row, [result[table][column]] on a row over several tables;
    absent when the row has none. *)
Definition rowValue (r : ResultRow) (c : Column) : Value :=
  match r with
  | FlatRow payload => default VAbsent (payload !! col_name c)
  | CompositeRow e => getVal e c
  end.

(** Modelled from the spec: running a plan. *)
Definition execute (plan : PhysicalNode) : Run (list ResultRow) :=
  rel ← execNode plan;
  mret (shape (planTables plan) <$> rel).

(** Modelled from the spec: [exec()] of a select, the plan made and
    run. *)
Definition select_exec
    (engine : DefaultQueryEngine.t SelectContext LogicalNode PhysicalNode)
    (q : SelectContext) : Run (list ResultRow) :=
  plan ← DefaultQueryEngine.getPlan engine q;
  execute plan.

(** ** The meaning of a logical tree

    The relation a logical tree stands for, read off the operator
    table; the plans are compared with it. *)
Definition tableRows (s : Store) (table : string) : list Row.t :=
  structs_Map.getValues (MemoryTable.data_ (s !!! table)).

Fixpoint denote (s : Store) (t : LogicalNode) : Relation :=
  match t with
  | LTableAccess table => wrap table <$> tableRows s table
  | LSelect p c => filter (λ e, evaluate p e) (denote s c)
  | LProject cols aggs c => project cols aggs (denote s c)
  | LCrossProduct l r => crossProduct (denote s l) (denote s r)
  | LJoin p l r => nestedLoop p (denote s l) (denote s r)
  | LOrderBy specs c => stableSort (precedes specs) (denote s c)
  | LSkip n c => drop n (denote s c)
  | LLimit n c => take n (denote s c)
  end.

(** The outcome of a computation that settles well. *)
Definition outcome {A} (m : Run A) (s : Store) (a : A) : Prop :=
  m s = (resolve a, s).

(** The relation a plan computes over a store, in closed form. *)
Fixpoint relationOf (s : Store) (n : PhysicalNode) : Relation :=
  match n with
  | PTableAccess table => wrap table <$> tableRows s table
  | PSelect p c => filter (λ e, evaluate p e) (relationOf s c)
  | PProject cols aggs c => project cols aggs (relationOf s c)
  | PCrossProduct l r => crossProduct (relationOf s l) (relationOf s r)
  | PJoin strategy p l r => join strategy p (relationOf s l) (relationOf s r)
  | POrderBy specs c => stableSort (precedes specs) (relationOf s c)
  | PSkip n c => drop n (relationOf s c)
  | PLimit n c => take n (relationOf s c)
  | PTake skipped taken c => take taken (drop skipped (relationOf s c))
  end.

(** The rows of a list come in the order of a relation. *)
Definition ordered {A} (R : A → A → Prop) (l : list A) : Prop :=
  ∀ i j a b, (i < j)%nat → l !! i = Some a → l !! j = Some b → R a b.

Definition valueLe (a b : Value) : Prop := compareValue a b ≠ Gt.

(** The trees below the projection: accesses, selects, products, joins. *)
Fixpoint isCore (t : LogicalNode) : bool :=
  match t with
  | LTableAccess _ => true
  | LSelect _ c => isCore c
  | LCrossProduct l r | LJoin _ l r => isCore l && isCore r
  | _ => false
  end.

(** The tables in scope of a select. *)
Definition scope (q : SelectContext) : list string :=
  from q :: from_more q ++ (joins q).*1.

(** A payload restricted to the columns named, and a payload with the
    scalars of the aggregators over a relation added. *)
Definition keepColumns (cols : list Column) (payload : gmap string Value)
  : gmap string Value :=
  filter (λ kv, kv.1 ∈ col_name <$> cols) payload.

Definition withScalars (aggs : list Aggregator) (rel : Relation)
    (payload : gmap string Value) : gmap string Value :=
  foldr (λ a m, <[aggName a := evalAggregator a rel]> m) payload aggs.

(** ** The assertions of the end-to-end tests *)

(** What a test reads off a result object: [undefined] for a key the
    object does not have, and an object for the payload of a table in a
    result over several tables. *)
Inductive JsValue :=
  | JsUndefined
  | JsNull
  | JsBoolean (b : bool)
  | JsNumber (z : Z)
  | JsString (t : string)
  | JsObject.

#[global] Instance JsValue_eq_dec : EqDecision JsValue.
Proof. solve_decision. Defined.

(** A cell of a payload as a value of the tests; the absent marker is
    [null]. *)
Definition toJs (v : Value) : JsValue :=
  match v with
  | VInt z => JsNumber z
  | VText t => JsString t
  | VBool b => JsBoolean b
  | VAbsent => JsNull
  end.

(** [result[name]]: on a flat row the cell under that column name, on a
    row over several tables the payload object of the table of that
    name; [undefined] when the row has no such key (column and table
    names are taken not to be names that every object answers to). *)
Definition jsProperty (result : ResultRow) (name : string) : JsValue :=
  match result with
  | FlatRow payload =>
      match payload !! name with Some v => toJs v | None => JsUndefined end
  | CompositeRow e =>
      match e !! name with Some _ => JsObject | None => JsUndefined end
  end.

(** The primitive a comparison reads a value as; a payload object is
    read as the string that every plain object gives. *)
Definition toPrimitive (v : JsValue) : JsValue :=
  match v with JsObject => JsString "[object Object]" | _ => v end.

(** The number a comparison reads a value as: [undefined] and an object
    are not a number, [null] is 0, [false] and [true] are 0 and 1.  The
    number that a string reads as is outside this model. *)
Inductive JsNumeric := NaN | Num (z : Z) | Unread.

Definition toNumber (v : JsValue) : JsNumeric :=
  match v with
  | JsUndefined | JsObject => NaN
  | JsNull => Num 0
  | JsBoolean b => Num (if b then 1 else 0)
  | JsNumber z => Num z
  | JsString _ => Unread
  end.

(** [x < y]: [Some (Some b)] is the boolean [b], [Some None] is
    [undefined] (one side is not a number), [None] is a comparison this
    model does not read (a string against a number).  Two strings are
    compared letter by letter, anything else as numbers. *)
Definition jsLess (x y : JsValue) : option (option bool) :=
  match toPrimitive x, toPrimitive y with
  | JsString a, JsString b => Some (Some (bool_decide (String.compare a b = Lt)))
  | _, _ =>
      match toNumber x, toNumber y with
      | NaN, _ | _, NaN => Some None
      | Num a, Num b => Some (Some (bool_decide (a < b)))
      | _, _ => None
      end
  end.

(** [value <= soFar] is false when [soFar < value] is true or
    [undefined], and [value >= soFar] is false when [value < soFar] is
    true or [undefined]. *)
Definition jsLe (value soFar : JsValue) : option bool :=
  r ← jsLess soFar value; Some (bool_decide (r = Some false)).

Definition jsGe (value soFar : JsValue) : option bool :=
  r ← jsLess value soFar; Some (bool_decide (r = Some false)).

(** [assertOrder(results, column, order)]: every result but the first is
    compared, on [result[column.getName()]], with the result before it.
    [Some true] is a run to the end, [Some false] an [assertTrue] that
    throws, which ends the loop; [None] is a run that meets a
    comparison outside the model. *)
Definition assertOrder (results : list ResultRow) (column : Column)
    (order : Order) : option bool :=
  (foldl (λ '(soFar, index, passed) result,
            let value := jsProperty result (col_name column) in
            (value, S index,
             match passed with
             | Some true =>
                 if decide (0 < index)%nat
                 then match order with
                      | DESC => jsLe value soFar
                      | ASC => jsGe value soFar
                      end
                 else Some true
             | _ => passed
             end))
         (JsNull, 0%nat, Some true) results).2.

(** [goog.array.bucket(array, sorter)]: the elements under the key the
    sorter gives them, each bucket in the order of the array. *)
Definition bucket (array : list ResultRow) (sorter : ResultRow → Value)
  : gmap Value (list ResultRow) :=
  foldl (λ buckets value,
           <[sorter value := buckets !!! sorter value ++ [value]]> buckets)
        ∅ array.

(** ** Skip and limit *)

(** A select without its skip and its limit. *)
Definition unbounded (q : SelectContext) : SelectContext :=
  mkSelect (from q) (from_more q) (joins q) (where_ q) (columns q)
           (aggregators q) (orderBy q) None None.

(** What the skip and the limit of a select leave of a list. *)
Definition bounded {A} (q : SelectContext) (l : list A) : list A :=
  let skipped := match skip q with Some n => drop n l | None => l end in
  match limit q with Some n => take n skipped | None => skipped end.

(** Every result stands in the order with the one right before it. *)
Definition adjacent {A} (R : A → A → Prop) (l : list A) : Prop :=
  ∀ i a b, l !! i = Some a → l !! S i = Some b → R a b.

(** What [assertOrder] asks of a result and the one before it. *)
Definition inOrder (column : Column) (order : Order) (before result : ResultRow)
  : Prop :=
  match order with
  | DESC => jsLe (jsProperty result (col_name column))
                 (jsProperty before (col_name column))
  | ASC => jsGe (jsProperty result (col_name column))
                (jsProperty before (col_name column))
  end = Some true.

(** ** Order-by *)

(** A select without its order-by, its skip and its limit. *)
Definition unordered (q : SelectContext) : SelectContext :=
  mkSelect (from q) (from_more q) (joins q) (where_ q) (columns q)
           (aggregators q) [] None None.

(** The rows of a table that the where clause of a select keeps. *)
Definition kept (q : SelectContext) (row : Row.t) : Prop :=
  match where_ q with
  | Some p => evaluate p (wrap (from q) row)
  | None => True
  end.

#[global] Instance kept_dec q row : Decision (kept q row).
Proof. unfold kept. destruct (where_ q); apply _. Defined.

(** ** Sample tables *)
Module Sample.
Definition job (i : Z) (jobId title : string) (lo hi : Z) : Row.t :=
  Row.mk i (<["id" := VText jobId]>
            (<["title" := VText title]>
             (<["minSalary" := VInt lo]> (<["maxSalary" := VInt hi]> ∅)))).
Definition clerk : Row.t := job 1 "jobId1" "clerk" 100 300.
Definition driver : Row.t := job 2 "jobId2" "driver" 200 300.
Definition pilot : Row.t := job 3 "jobId3" "pilot" 150 500.
(** Same identity as [clerk], another payload. *)
Definition clerk' : Row.t := job 1 "jobId1" "senior clerk" 120 320.
Definition pilots : MemoryTable.t :=
  (MemoryTable.put MemoryTable.new [pilot]).1.
Definition jobs : MemoryTable.t :=
  (MemoryTable.put MemoryTable.new [clerk; driver; pilot]).1.

Definition employee (i : Z) (name jobId : string) : Row.t :=
  Row.mk i (<["id" := VText name]> (<["jobId" := VText jobId]> ∅)).
Definition ann : Row.t := employee 1 "ann" "jobId3".
Definition bob : Row.t := employee 2 "bob" "jobId1".
Definition eve : Row.t := employee 3 "eve" "jobId3".
Definition employees : MemoryTable.t :=
  (MemoryTable.put MemoryTable.new [ann; bob; eve]).1.

Definition db : gmap string MemoryTable.t :=
  <["Job" := jobs]> (<["Employee" := employees]> ∅).

Definition j (name : string) : Column := mkColumn "Job" name.
Definition e (name : string) : Column := mkColumn "Employee" name.

(** [db.select().from(...)] *)
Definition select (table : string) (more : list string) : SelectContext :=
  mkSelect table more [] None [] [] [] None None.

(** No index, no size known. *)
Definition bare : Global := mkGlobal (λ _, false) (λ _, None).
(** No index, the sizes of both tables known. *)
Definition sized : Global :=
  mkGlobal (λ _, false)
           (λ t, if decide (t = "Job") then Some 3%nat
                 else if decide (t = "Employee") then Some 3%nat else None).

(** The where clause of [testSelect_ImplicitJoin]. *)
Definition implicitJoin : Predicate :=
  And (ValuePredicate (e "jobId") EQ (VText "jobId3"))
      (JoinPredicate (e "jobId") EQ (j "id")).

(** The query of [testSelect_ImplicitJoin], and the one with the from
    list reversed. *)
Definition employeesOfJob3 : SelectContext :=
  mkSelect "Employee" ["Job"] [] (Some implicitJoin) [] [] [] None None.
Definition employeesOfJob3' : SelectContext :=
  mkSelect "Job" ["Employee"] [] (Some implicitJoin) [] [] [] None None.

(** The query of [testSelect_OrderBy_Multiple]. *)
Definition jobsBySalary : SelectContext :=
  mkSelect "Job" [] [] None [] []
           [(j "maxSalary", DESC); (j "minSalary", ASC)] None None.

(** The query of [testSelect_OrderBy_Ascending]. *)
Definition jobsByMinSalary : SelectContext :=
  mkSelect "Job" [] [] None [] [] [(j "minSalary", ASC)] None None.

(** The query of [testSelect_Min_BothColumnsAndAggregators]. *)
Definition minMaxSalary : Aggregator := mkAggregator MIN (j "maxSalary") false.
Definition titlesWithMin : SelectContext :=
  mkSelect "Job" [] [] None [j "title"; j "maxSalary"] [minMaxSalary]
           [] None None.
End Sample.
(** * Facts about the memory table *)

Section memory_table_facts.
Implicit Types (this : MemoryTable.t) (ids : list Z) (rows : list Row.t).
Implicit Types (data : gmap Z Row.t) (r : Row.t).

Lemma getValues_elem data r :
  r ∈ structs_Map.getValues data ↔ ∃ k, data !! k = Some r.
Proof.
  unfold structs_Map.getValues. rewrite list_elem_of_fmap. split.
  - intros [[k r'] [-> Hin]]. exists k. by apply elem_of_map_to_list in Hin.
  - intros [k Hk]. exists (k, r). split; [done|]. by apply elem_of_map_to_list.
Qed.

Lemma getValues_length data :
  length (structs_Map.getValues data) = structs_Map.getCount data.
Proof.
  unfold structs_Map.getValues, structs_Map.getCount.
  rewrite length_fmap. apply length_map_to_list.
Qed.

(** The loop of [get] collects, in the order of the ids, the rows found. *)
Lemma get_loop data ids acc :
  foldl (λ results id,
           match structs_Map.get data id with
           | Some row => results ++ [row]
           | None => results
           end) acc ids
  = acc ++ omap (λ id, data !! id) ids.
Proof.
  revert acc. induction ids as [|i ids IH]; intros acc; simpl.
  - by rewrite app_nil_r.
  - rewrite IH. unfold structs_Map.get. destruct (data !! i); simpl.
    + by rewrite <- app_assoc.
    + done.
Qed.

Lemma get_nonempty this ids :
  ids ≠ [] →
  MemoryTable.get this ids = resolve (omap (λ id, MemoryTable.data_ this !! id) ids).
Proof.
  intros Hne. unfold MemoryTable.get.
  destruct (decide (length ids = 0%nat)) as [Hlen|_].
  - by destruct ids.
  - by rewrite get_loop.
Qed.

Lemma get_empty this :
  MemoryTable.get this [] = resolve (structs_Map.getValues (MemoryTable.data_ this)).
Proof. reflexivity. Qed.

Lemma elem_of_omap_lookup data ids r :
  r ∈ omap (λ id, data !! id) ids ↔ ∃ k, k ∈ ids ∧ data !! k = Some r.
Proof. by rewrite list_elem_of_omap. Qed.

(** The loop of [put]: the last row written under a key wins. *)
Lemma put_loop_lookup rows data k :
  foldl (λ data row, structs_Map.set data (Row.id row) row) data rows !! k
  = match last (filter (λ r, Row.id r = k) rows) with
    | Some r => Some r
    | None => data !! k
    end.
Proof.
  revert data. induction rows as [|r rows IH]; intros data; simpl; [done|].
  rewrite IH. unfold structs_Map.set. rewrite filter_cons.
  destruct (decide (Row.id r = k)) as [<-|Hne].
  - destruct (filter _ rows) as [|r' l] eqn:Hf; simpl.
    + by rewrite lookup_insert_eq.
    + destruct (last (r' :: l)) eqn:Hl; [done|]. by apply last_None in Hl.
  - destruct (last _); [done|]. by rewrite lookup_insert_ne.
Qed.

(** The loop of [remove]. *)
Lemma remove_loop_lookup ids data k :
  foldl (λ data id, structs_Map.remove data id) data ids !! k
  = if decide (k ∈ ids) then None else data !! k.
Proof.
  revert data. induction ids as [|i ids IH]; intros data.
  - cbn [foldl]. by rewrite decide_False by apply not_elem_of_nil.
  - cbn [foldl]. rewrite IH. unfold structs_Map.remove.
    destruct (decide (k = i)) as [->|Hne].
    + rewrite lookup_delete_eq. rewrite (decide_True (P := i ∈ i :: ids)) by left.
      by case_decide.
    + rewrite lookup_delete_ne by done.
      destruct (decide (k ∈ ids)) as [Hin|Hnin].
      * by rewrite decide_True by (by right).
      * rewrite decide_False; [done|]. by intros [?|?]%elem_of_cons.
Qed.

Lemma keyed_new : MemoryTable.keyed MemoryTable.new.
Proof. intros k r. unfold MemoryTable.new; simpl. by rewrite lookup_empty. Qed.

Lemma keyed_put this rows :
  MemoryTable.keyed this → MemoryTable.keyed (MemoryTable.put this rows).1.
Proof.
  intros Hk k r. simpl. rewrite put_loop_lookup.
  destruct (last _) as [r'|] eqn:Hl.
  - intros [= ->]. apply last_Some_elem_of in Hl.
    by apply list_elem_of_filter in Hl as [? _].
  - apply Hk.
Qed.

Lemma keyed_remove this ids :
  MemoryTable.keyed this → MemoryTable.keyed (MemoryTable.remove this ids).1.
Proof.
  intros Hk k r. unfold MemoryTable.remove. case_decide; simpl.
  - unfold structs_Map.clear. by rewrite lookup_empty.
  - rewrite remove_loop_lookup. case_decide; [done|]. apply Hk.
Qed.

End memory_table_facts.


(** * Facts about the order on values and about sorting *)

Section value_order.
Implicit Types (a b c : Value).

Lemma compareValue_eq a b : compareValue a b = Eq ↔ a = b.
Proof.
  destruct a as [x|x|x|], b as [y|y|y|]; simpl; try (split; discriminate || done).
  - rewrite Z.compare_eq_iff. split; congruence.
  - change (String.compare x y) with (OrderedTypeEx.String_as_OT.cmp x y).
    rewrite OrderedTypeEx.String_as_OT.cmp_eq. split; congruence.
  - destruct x, y; simpl; split; congruence.
Qed.

Lemma compareValue_refl a : compareValue a a = Eq.
Proof. by apply compareValue_eq. Qed.

Lemma compareValue_antisym a b : compareValue b a = CompOpp (compareValue a b).
Proof.
  destruct a as [x|x|x|], b as [y|y|y|]; simpl; try done.
  - apply Z.compare_antisym.
  - apply String.compare_antisym.
  - by destruct x, y.
Qed.

Lemma compareValue_lt_trans a b c :
  compareValue a b = Lt → compareValue b c = Lt → compareValue a c = Lt.
Proof.
  destruct a as [x|x|x|], b as [y|y|y|], c as [z|z|z|]; simpl; try done.
  - rewrite !Z.compare_lt_iff. lia.
  - change String.compare with OrderedTypeEx.String_as_OT.cmp.
    rewrite !OrderedTypeEx.String_as_OT.cmp_lt.
    apply OrderedTypeEx.String_as_OT.lt_trans.
  - by destruct x, y, z.
Qed.

Lemma valueLe_refl a : valueLe a a.
Proof. unfold valueLe. by rewrite compareValue_refl. Qed.

End value_order.

(** The comparator of an order-by is a total preorder. *)
Section entry_order.
Implicit Types (a b c : RelationEntry) (specs : list (Column * Order)).

Lemma directed_antisym o (x y : Value) :
  directed o (compareValue y x) = CompOpp (directed o (compareValue x y)).
Proof. destruct o; simpl; by rewrite (compareValue_antisym x y). Qed.

Lemma directed_eq o (x y : Value) :
  directed o (compareValue x y) = Eq ↔ x = y.
Proof.
  rewrite <- compareValue_eq. destruct o; simpl; [done|].
  by destruct (compareValue x y).
Qed.

Lemma directed_lt_trans o (x y z : Value) :
  directed o (compareValue x y) = Lt → directed o (compareValue y z) = Lt →
  directed o (compareValue x z) = Lt.
Proof.
  destruct o; simpl; [apply compareValue_lt_trans|].
  rewrite <- !compareValue_antisym. intros H1 H2.
  by apply (compareValue_lt_trans z y x).
Qed.

Lemma compareEntries_antisym specs a b :
  compareEntries specs b a = CompOpp (compareEntries specs a b).
Proof.
  induction specs as [|[c o] specs IH]; simpl; [done|].
  rewrite (directed_antisym o (getVal a c) (getVal b c)).
  by destruct (directed o (compareValue (getVal a c) (getVal b c))).
Qed.

Lemma compareEntries_eq_l specs a b c :
  compareEntries specs a b = Eq →
  compareEntries specs a c = compareEntries specs b c.
Proof.
  induction specs as [|[col o] specs IH]; simpl; [done|].
  destruct (directed o (compareValue (getVal a col) (getVal b col))) eqn:Hab;
    try done.
  apply directed_eq in Hab. rewrite Hab. intros ?.
  by rewrite IH.
Qed.

Lemma compareEntries_eq_r specs a b c :
  compareEntries specs b c = Eq →
  compareEntries specs a b = compareEntries specs a c.
Proof.
  induction specs as [|[col o] specs IH]; simpl; [done|].
  destruct (directed o (compareValue (getVal b col) (getVal c col))) eqn:Hbc;
    try done.
  apply directed_eq in Hbc. rewrite Hbc. intros ?.
  by rewrite IH.
Qed.

Lemma compareEntries_lt_trans specs a b c :
  compareEntries specs a b = Lt → compareEntries specs b c = Lt →
  compareEntries specs a c = Lt.
Proof.
  induction specs as [|[col o] specs IH]; simpl; [done|].
  destruct (directed o (compareValue (getVal a col) (getVal b col))) eqn:Hab;
    try done.
  - apply directed_eq in Hab. rewrite Hab.
    destruct (directed o (compareValue (getVal b col) (getVal c col)));
      done.
  - intros _.
    destruct (directed o (compareValue (getVal b col) (getVal c col))) eqn:Hbc;
      try done.
    + apply directed_eq in Hbc. rewrite <- Hbc. by rewrite Hab.
    + by rewrite (directed_lt_trans _ _ _ _ Hab Hbc).
Qed.

Lemma precedes_total specs a b :
  precedes specs a b = false → precedes specs b a = true.
Proof.
  unfold precedes. rewrite (compareEntries_antisym specs a b).
  by destruct (compareEntries specs a b).
Qed.

Lemma precedes_trans specs a b c :
  precedes specs a b → precedes specs b c → precedes specs a c.
Proof.
  unfold precedes.
  destruct (compareEntries specs a b) eqn:Hab; try done; intros _.
  - by rewrite (compareEntries_eq_l _ _ _ _ Hab).
  - destruct (compareEntries specs b c) eqn:Hbc; try done; intros _.
    + by rewrite <- (compareEntries_eq_r _ _ _ _ Hbc), Hab.
    + by rewrite (compareEntries_lt_trans _ _ _ _ Hab Hbc).
Qed.

End entry_order.

Section sorting.
Context {A : Type} (le : A → A → bool).
Hypothesis le_total : ∀ x y, le x y = false → le y x = true.
Hypothesis le_trans : ∀ x y z, le x y → le y z → le x z.

Lemma insertSorted_perm x l : insertSorted le x l ≡ₚ x :: l.
Proof.
  induction l as [|y l IH]; simpl; [done|].
  destruct (le x y); [done|]. rewrite IH. apply Permutation_swap.
Qed.

Lemma stableSort_perm l : stableSort le l ≡ₚ l.
Proof.
  induction l as [|x l IH]; simpl; [done|].
  rewrite insertSorted_perm. by f_equiv.
Qed.

Lemma insertSorted_sorted x l :
  StronglySorted le l → StronglySorted le (insertSorted le x l).
Proof.
  induction 1 as [|y l Hs IH Hy]; simpl.
  - repeat constructor.
  - destruct (le x y) eqn:Hxy.
    + constructor; [by constructor|]. constructor; [by rewrite Hxy|].
      eapply Forall_impl; [exact Hy|]. intros z Hz.
      apply (le_trans x y z); [by rewrite Hxy|done].
    + constructor; [done|]. rewrite insertSorted_perm.
      constructor; [|done]. by rewrite le_total.
Qed.

Lemma stableSort_sorted l : StronglySorted le (stableSort le l).
Proof.
  induction l as [|x l IH]; simpl; [constructor|].
  by apply insertSorted_sorted.
Qed.

Lemma StronglySorted_ordered (R : A → A → Prop) l :
  StronglySorted R l → ordered R l.
Proof.
  induction 1 as [|x l Hs IH Hx]; intros i j a b Hij Hi Hj.
  - by rewrite lookup_nil in Hi.
  - destruct j as [|j]; [lia|]. simpl in Hj.
    destruct i as [|i]; simpl in Hi.
    + injection Hi as ->. rewrite Forall_forall in Hx.
      apply Hx. by eapply list_elem_of_lookup_2.
    + apply (IH i j); [lia|done..].
Qed.

Lemma ordered_take_drop (R : A → A → Prop) n m l :
  ordered R l → ordered R (take n (drop m l)).
Proof.
  intros Hl i j a b Hij Hi Hj.
  apply lookup_take_Some in Hi as [Hi _]. apply lookup_take_Some in Hj as [Hj _].
  rewrite lookup_drop in Hi, Hj. apply (Hl (m + i)%nat (m + j)%nat); [lia|done..].
Qed.

End sorting.

Lemma ordered_fmap {A B} (R : A → A → Prop) (R' : B → B → Prop) (f : A → B) l :
  (∀ a b, R a b → R' (f a) (f b)) → ordered R l → ordered R' (f <$> l).
Proof.
  intros Hf Hl i j a b Hij Hi Hj.
  apply list_lookup_fmap_Some in Hi as (a' & -> & Hi).
  apply list_lookup_fmap_Some in Hj as (b' & -> & Hj).
  apply Hf. by apply (Hl i j).
Qed.

Lemma ordered_drop {A} (R : A → A → Prop) m l :
  ordered R l → ordered R (drop m l).
Proof.
  intros Hl i j a b Hij Hi Hj. rewrite lookup_drop in Hi, Hj.
  apply (Hl (m + i)%nat (m + j)%nat); [lia|done..].
Qed.

Lemma ordered_take {A} (R : A → A → Prop) n l :
  ordered R l → ordered R (take n l).
Proof.
  intros Hl i j a b Hij Hi Hj.
  apply lookup_take_Some in Hi as [Hi _]. apply lookup_take_Some in Hj as [Hj _].
  by apply (Hl i j).
Qed.

(** * Facts about computations *)

Section run.
Context {A B : Type}.

Lemma outcome_ret (a : A) s : outcome (mret a) s a.
Proof. done. Qed.

Lemma outcome_bind (m : Run A) (f : A → Run B) s a b :
  outcome m s a → outcome (f a) s b → outcome (m ≫= f) s b.
Proof.
  unfold outcome. intros Hm Hf. unfold mbind, Run_bind. by rewrite Hm.
Qed.

Lemma outcome_det (m : Run A) s a a' : outcome m s a → outcome m s a' → a = a'.
Proof. unfold outcome. intros -> [= ->]. done. Qed.

End run.

Lemma tableGet_all s table : outcome (tableGet table []) s (tableRows s table).
Proof. done. Qed.

(** A plan always runs to its end, and on the relation it stands for. *)
Lemma execNode_outcome s n : outcome (execNode n) s (relationOf s n).
Proof.
  induction n; simpl;
    repeat (eapply outcome_bind; [eassumption || apply tableGet_all|]);
    apply outcome_ret.
Qed.

(** * Facts about the operators and the rewrite rules *)

Lemma filter_fmap_const {A B} (P : B → Prop) `{!∀ x, Decision (P x)}
    (f : A → B) (b : bool) (l : list A) :
  (∀ x, x ∈ l → P (f x) ↔ b) →
  filter P (f <$> l) = if b then f <$> l else [].
Proof.
  induction l as [|x l IH]; intros Hyp; [by destruct b|].
  rewrite fmap_cons, filter_cons, IH by (intros; apply Hyp; by right).
  destruct (decide (P (f x))) as [HP|HP].
  - apply Hyp in HP; [|left]. by destruct b.
  - destruct b; [|done]. destruct HP. apply Hyp; [left|done].
Qed.

Lemma filter_comm {A} (P Q : A → Prop)
    `{!∀ x, Decision (P x), !∀ x, Decision (Q x)} (l : list A) :
  filter P (filter Q l) = filter Q (filter P l).
Proof.
  rewrite !list_filter_filter. apply list_filter_iff. intros a. split; by intros [??].
Qed.

Section operators.
Implicit Types (e x y : RelationEntry) (L R : Relation) (p q : Predicate).
Implicit Types (c : Column) (t l r : LogicalNode) (s : Store).

Lemma getVal_merge_l x y c :
  is_Some (x !! col_table c) → getVal (merge x y) c = getVal x c.
Proof. intros H. unfold getVal, merge. by rewrite lookup_union_l'. Qed.

Lemma getVal_merge_r x y c :
  x !! col_table c = None → getVal (merge x y) c = getVal y c.
Proof. intros H. unfold getVal, merge. by rewrite lookup_union_r. Qed.

(** A predicate sees a row through its columns only. *)
Lemma evaluate_ext p e e' :
  (∀ c, c ∈ predColumns p → getVal e c = getVal e' c) →
  evaluate p e = evaluate p e'.
Proof.
  induction p as [c op v|a op b|p IHp q IHq|p IHp q IHq|p IHp];
    simpl; intros Hyp.
  - by rewrite (Hyp c) by left.
  - by rewrite (Hyp a), (Hyp b) by (by left || (right; left)).
  - rewrite IHp, IHq; [done|intros; apply Hyp, elem_of_app; auto..].
  - rewrite IHp, IHq; [done|intros; apply Hyp, elem_of_app; auto..].
  - by rewrite IHp.
Qed.

Lemma evaluate_conjuncts p e :
  evaluate p e = forallb (λ q, evaluate q e) (conjuncts p).
Proof.
  induction p as [| |p IHp q IHq| |]; simpl; try by rewrite andb_true_r.
  by rewrite forallb_app, IHp, IHq.
Qed.

Lemma crossProduct_cons x L R :
  crossProduct (x :: L) R = (merge x <$> R) ++ crossProduct L R.
Proof. done. Qed.

Lemma elem_of_crossProduct e L R :
  e ∈ crossProduct L R ↔ ∃ x y, e = merge x y ∧ x ∈ L ∧ y ∈ R.
Proof.
  unfold crossProduct. rewrite list_elem_of_bind. split.
  - intros (l & He & Hl). apply list_elem_of_fmap in He as (r & -> & Hr).
    by exists l, r.
  - intros (l & r & -> & Hl & Hr). exists l. split; [|done].
    apply list_elem_of_fmap. by exists r.
Qed.

Lemma crossProduct_perm L L' R R' :
  L ≡ₚ L' → R ≡ₚ R' → crossProduct L R ≡ₚ crossProduct L' R'.
Proof.
  intros HL HR. trans (crossProduct L R').
  - clear HL. induction L as [|l L IH]; [done|].
    rewrite !crossProduct_cons. by rewrite IH, HR.
  - unfold crossProduct. by rewrite HL.
Qed.

(** A filter that looks at the left rows only goes below the product. *)
Lemma filter_crossProduct_l (P P1 : RelationEntry → Prop)
    `{!∀ x, Decision (P x), !∀ x, Decision (P1 x)} L R :
  (∀ x y, x ∈ L → y ∈ R → P (merge x y) ↔ P1 x) →
  filter P (crossProduct L R) = crossProduct (filter P1 L) R.
Proof.
  induction L as [|l L IH]; intros Hyp; [done|].
  rewrite crossProduct_cons, filter_app, IH, filter_cons
    by (intros; apply Hyp; [by right|done]).
  rewrite (filter_fmap_const P (merge l) (bool_decide (P1 l))).
  - destruct (decide (P1 l)) as [Hl|Hl].
    + by rewrite bool_decide_true.
    + by rewrite bool_decide_false.
  - intros r Hr. rewrite Hyp; [|left|done].
    by rewrite bool_decide_spec.
Qed.

Lemma filter_crossProduct_r (P P1 : RelationEntry → Prop)
    `{!∀ x, Decision (P x), !∀ x, Decision (P1 x)} L R :
  (∀ x y, x ∈ L → y ∈ R → P (merge x y) ↔ P1 y) →
  filter P (crossProduct L R) = crossProduct L (filter P1 R).
Proof.
  induction L as [|l L IH]; intros Hyp; [done|].
  rewrite !crossProduct_cons, filter_app, IH
    by (intros; apply Hyp; [by right|done]).
  f_equal. assert (∀ y, y ∈ R → P (merge l y) ↔ P1 y) as Hl
    by (intros; apply Hyp; [left|done]).
  clear -Hl. induction R as [|r R IHR]; [done|].
  rewrite fmap_cons, !filter_cons, IHR by (intros; apply Hl; by right).
  destruct (decide (P (merge l r))) as [HP|HP].
  - rewrite decide_True; [done|]. apply Hl; [left|done].
  - rewrite decide_False; [done|]. intros ?. apply HP, Hl; [left|done].
Qed.

(** The rows of a core tree carry exactly the tables of the tree. *)
Lemma denote_tables s t e table :
  isCore t → e ∈ denote s t → is_Some (e !! table) ↔ table ∈ tables t.
Proof.
  revert e. induction t as [tb|p c IH| |l IHl r IHr|p l IHl r IHr| | |];
    simpl; intros e Hcore He; try done.
  - apply list_elem_of_fmap in He as (row & -> & _). unfold wrap.
    rewrite list_elem_of_singleton.
    destruct (decide (tb = table)) as [->|Hne].
    + by rewrite lookup_singleton_eq.
    + rewrite lookup_singleton_ne by done. split; [by intros []|congruence].
  - apply list_elem_of_filter in He as [_ He]. by apply IH.
  - apply andb_True in Hcore as [Hl Hr].
    apply elem_of_crossProduct in He as (x & y & -> & Hx & Hy).
    unfold merge. rewrite lookup_union_is_Some, elem_of_app.
    by rewrite (IHl x), (IHr y).
  - apply andb_True in Hcore as [Hl Hr].
    apply list_elem_of_filter in He as [_ He].
    apply elem_of_crossProduct in He as (x & y & -> & Hx & Hy).
    unfold merge. rewrite lookup_union_is_Some, elem_of_app.
    by rewrite (IHl x), (IHr y).
Qed.

Lemma sideOf_Left c l r : sideOf c l r = Some Left ↔ col_table c ∈ tables l.
Proof.
  unfold sideOf. repeat case_bool_decide; split; intros; done.
Qed.

Lemma sideOf_Right c l r :
  sideOf c l r = Some Right ↔ (col_table c ∉ tables l) ∧ (col_table c ∈ tables r).
Proof.
  unfold sideOf. repeat case_bool_decide; split; try done; by intros [??].
Qed.

Lemma getVal_side_l s l r x y c :
  isCore l → x ∈ denote s l → sideOf c l r = Some Left →
  getVal (merge x y) c = getVal x c.
Proof.
  intros Hl Hx Hc%sideOf_Left. apply getVal_merge_l.
  by apply (denote_tables s l x).
Qed.

Lemma getVal_side_r s l r x y c :
  isCore l → x ∈ denote s l → sideOf c l r = Some Right →
  getVal (merge x y) c = getVal y c.
Proof.
  intros Hl Hx [Hc _]%sideOf_Right. apply getVal_merge_r.
  apply eq_None_not_Some. by rewrite (denote_tables s l x).
Qed.

Lemma allFrom_spec side p l r c :
  allFrom side p l r → c ∈ predColumns p → sideOf c l r = Some side.
Proof.
  unfold allFrom. rewrite forallb_True, Forall_forall. intros H Hc.
  specialize (H c Hc). by apply bool_decide_unpack in H.
Qed.

Lemma evaluate_left s p l r x y :
  isCore l → allFrom Left p l r → x ∈ denote s l →
  evaluate p (merge x y) = evaluate p x.
Proof.
  intros Hl Hp Hx. apply evaluate_ext. intros c Hc.
  eapply getVal_side_l; [done..|]. by eapply allFrom_spec.
Qed.

Lemma evaluate_right s p l r x y :
  isCore l → allFrom Right p l r → x ∈ denote s l →
  evaluate p (merge x y) = evaluate p y.
Proof.
  intros Hl Hp Hx. apply evaluate_ext. intros c Hc.
  eapply getVal_side_r; [done..|]. by eapply allFrom_spec.
Qed.

Lemma filter_product_left s p l r :
  isCore l → allFrom Left p l r →
  filter (λ e, evaluate p e) (crossProduct (denote s l) (denote s r))
  = crossProduct (filter (λ e, evaluate p e) (denote s l)) (denote s r).
Proof.
  intros Hl Hp. apply filter_crossProduct_l. intros x y Hx Hy.
  by rewrite (evaluate_left s p l r).
Qed.

Lemma filter_product_right s p l r :
  isCore l → allFrom Right p l r →
  filter (λ e, evaluate p e) (crossProduct (denote s l) (denote s r))
  = crossProduct (denote s l) (filter (λ e, evaluate p e) (denote s r)).
Proof.
  intros Hl Hp. apply filter_crossProduct_r. intros x y Hx Hy.
  by rewrite (evaluate_right s p l r).
Qed.

(** Rule 1 keeps the tables, the shape and the rows. *)
Lemma pushSelect_tables p t : tables (pushSelect p t) = tables t.
Proof.
  induction t; simpl; repeat case_match; simpl; congruence.
Qed.

Lemma pushSelect_core p t : isCore t → isCore (pushSelect p t).
Proof.
  induction t; simpl; try done; intros H.
  - case_match; simpl; auto.
  - apply andb_True in H as [??].
    repeat case_match; simpl; rewrite ?andb_True; auto.
  - apply andb_True in H as [??].
    repeat case_match; simpl; rewrite ?andb_True; auto.
Qed.

Lemma allFrom_pushSelect side p q l r l' r' :
  tables l' = tables l → tables r' = tables r →
  allFrom side p l' r' = allFrom side p l r.
Proof. unfold allFrom, sideOf. by intros -> ->. Qed.

Lemma pushSelect_denote s p t :
  isCore t →
  denote s (pushSelect p t) = filter (λ e, evaluate p e) (denote s t).
Proof.
  induction t as [tb|q c IH| |l IHl r IHr|q l IHl r IHr| | |];
    simpl; intros Hcore; try done.
  - case_match; simpl; [|done]. rewrite IH by done. apply filter_comm.
  - apply andb_True in Hcore as [Hl Hr].
    destruct (allFrom Left p l r) eqn:HL; simpl.
    { rewrite IHl by done. symmetry. apply filter_product_left; by rewrite ?HL. }
    destruct (allFrom Right p l r) eqn:HR; simpl; [|done].
    rewrite IHr by done. symmetry. apply filter_product_right; by rewrite ?HR.
  - apply andb_True in Hcore as [Hl Hr]. unfold nestedLoop.
    destruct (allFrom Left p l r) eqn:HL; simpl.
    { unfold nestedLoop. rewrite IHl by done.
      rewrite <- filter_product_left by (by rewrite ?HL).
      apply filter_comm. }
    destruct (allFrom Right p l r) eqn:HR; simpl; [|done].
    unfold nestedLoop. rewrite IHr by done.
    rewrite <- filter_product_right by (by rewrite ?HR).
    apply filter_comm.
Qed.

Lemma pushSelects_tables ps t : tables (foldr pushSelect t ps) = tables t.
Proof. induction ps; simpl; [done|]. by rewrite pushSelect_tables. Qed.

Lemma pushSelects_core ps t : isCore t → isCore (foldr pushSelect t ps).
Proof. induction ps; simpl; [done|]. intros. by apply pushSelect_core, IHps. Qed.

Lemma pushSelects_denote s ps t :
  isCore t →
  denote s (foldr pushSelect t ps)
  = filter (λ e, forallb (λ q, evaluate q e) ps) (denote s t).
Proof.
  intros Hcore. induction ps as [|p ps IH]; simpl.
  - symmetry. induction (denote s t) as [|e rel IHrel]; [done|].
    by rewrite filter_cons_True, IHrel.
  - rewrite pushSelect_denote by (by apply pushSelects_core).
    rewrite IH, list_filter_filter. apply list_filter_iff.
    intros e. by rewrite andb_True.
Qed.

Lemma pushDownSelects_tables t : tables (pushDownSelects t) = tables t.
Proof.
  induction t; simpl; rewrite ?pushSelects_tables; congruence.
Qed.

Lemma pushDownSelects_core t : isCore t → isCore (pushDownSelects t).
Proof.
  induction t; simpl; try done; intros H.
  - by apply pushSelects_core, IHt.
  - apply andb_True in H as [??]. rewrite andb_True. auto.
  - apply andb_True in H as [??]. rewrite andb_True. auto.
Qed.

Lemma pushDownSelects_denote s t :
  isCore t → denote s (pushDownSelects t) = denote s t.
Proof.
  induction t as [tb|q c IH| |l IHl r IHr|q l IHl r IHr| | |];
    simpl; intros Hcore; try done.
  - rewrite pushSelects_denote by (by apply pushDownSelects_core).
    rewrite IH by done. apply list_filter_iff. intros e.
    by rewrite <- evaluate_conjuncts.
  - apply andb_True in Hcore as [??]. by rewrite IHl, IHr.
  - apply andb_True in Hcore as [??]. by rewrite IHl, IHr.
Qed.

(** Rule 2 likewise. *)
Lemma inferJoins_tables t : tables (inferJoins t) = tables t.
Proof.
  induction t; simpl; try congruence.
  repeat case_match; simpl in *; congruence.
Qed.

Lemma inferJoins_core t : isCore t → isCore (inferJoins t).
Proof.
  induction t; simpl; try done; intros H.
  - specialize (IHt H). repeat case_match; simpl in *; done.
  - apply andb_True in H as [??]. rewrite andb_True. auto.
  - apply andb_True in H as [??]. rewrite andb_True. auto.
Qed.

Lemma inferJoins_denote s t :
  isCore t → denote s (inferJoins t) = denote s t.
Proof.
  induction t as [tb|q c IH| |l IHl r IHr|q l IHl r IHr| | |];
    simpl; intros Hcore; try done.
  - specialize (IH Hcore). rewrite <- IH.
    repeat case_match; simpl in *; done.
  - apply andb_True in Hcore as [??]. by rewrite IHl, IHr.
  - apply andb_True in Hcore as [??]. unfold nestedLoop. by rewrite IHl, IHr.
Qed.

End operators.

(** * Facts about the physical plan *)

Section list_products.
Context {A B C : Type}.

Lemma filter_ext_in (P Q : A → Prop)
    `{!∀ a, Decision (P a), !∀ a, Decision (Q a)} (l : list A) :
  (∀ a, a ∈ l → P a ↔ Q a) → filter P l = filter Q l.
Proof.
  induction l as [|a l IH]; intros Hyp; [done|].
  rewrite !filter_cons, IH by (intros; apply Hyp; by right).
  destruct (decide (P a)) as [HP|HP].
  - rewrite decide_True; [done|]. apply Hyp; [left|done].
  - rewrite decide_False; [done|]. intros ?. apply HP, Hyp; [left|done].
Qed.

Lemma filter_fmap_pre (P : B → Prop) `{!∀ b, Decision (P b)}
    (f : A → B) (l : list A) :
  filter P (f <$> l) = f <$> filter (λ a, P (f a)) l.
Proof.
  induction l as [|a l IH]; [done|].
  rewrite fmap_cons, !filter_cons, IH. by destruct (decide (P (f a))).
Qed.

Lemma bind_cons_fmap (f : B → C) (g : B → list C) (l : list B) :
  l ≫= (λ b, f b :: g b) ≡ₚ (f <$> l) ++ (l ≫= g).
Proof.
  induction l as [|b l IH]; [done|].
  rewrite !bind_cons, fmap_cons, IH. simpl. f_equiv.
  rewrite !app_assoc. f_equiv. apply Permutation_app_comm.
Qed.

(** A product may be listed by rows or by columns. *)
Lemma product_swap (f : A → B → C) (l : list A) (k : list B) :
  l ≫= (λ a, f a <$> k) ≡ₚ k ≫= (λ b, (λ a, f a b) <$> l).
Proof.
  induction l as [|a l IH].
  - simpl. induction k as [|b k IHk]; [done|]. by rewrite bind_cons, <- IHk.
  - rewrite bind_cons, IH. symmetry.
    exact (bind_cons_fmap (f a) (λ b, (λ a', f a' b) <$> l) k).
Qed.

End list_products.

Section physical.
Implicit Types (e x y : RelationEntry) (L R : Relation) (p q : Predicate).
Implicit Types (c lc rc : Column) (t l r : LogicalNode) (s : Store) (g : Global).

Lemma planTables_create g t : planTables (PhysicalPlanFactory_create g t) = tables t.
Proof.
  induction t as [| | | | | | |n c IH]; simpl; try congruence.
  destruct c; simpl in *; congruence.
Qed.

Lemma buildTable_lookup c R (k : Value) :
  buildTable c R !!! k = filter (λ e, getVal e c = k) R.
Proof.
  induction R as [|e R IH]; simpl.
  - by rewrite lookup_total_empty.
  - rewrite filter_cons. destruct (decide (getVal e c = k)) as [<-|Hne].
    + by rewrite lookup_total_insert_eq, IH.
    + by rewrite lookup_total_insert_ne.
Qed.

(** Probing the table built on the right side, row by row of the left. *)
Lemma probe_right p lc rc L R :
  (∀ x y, x ∈ L → y ∈ R →
          evaluate p (merge x y) ↔ getVal y rc = getVal x lc) →
  L ≫= (λ x, merge x <$> buildTable rc R !!! getVal x lc) = nestedLoop p L R.
Proof.
  unfold nestedLoop. induction L as [|x L IH]; intros Hyp; [done|].
  rewrite crossProduct_cons, filter_app, bind_cons.
  rewrite IH by (intros; apply Hyp; [by right|done]). f_equal.
  rewrite buildTable_lookup, filter_fmap_pre. f_equal.
  apply filter_ext_in. intros y Hy. symmetry. apply Hyp; [left|done].
Qed.

(** Probing the table built on the left side, row by row of the right. *)
Lemma probe_left p lc rc L R :
  (∀ x y, x ∈ L → y ∈ R →
          evaluate p (merge x y) ↔ getVal x lc = getVal y rc) →
  R ≫= (λ y, (λ x, merge x y) <$> buildTable lc L !!! getVal y rc)
  ≡ₚ nestedLoop p L R.
Proof.
  intros Hyp. unfold nestedLoop, crossProduct.
  rewrite (product_swap merge L R).
  induction R as [|y R IH]; [done|].
  rewrite !bind_cons, filter_app, <- IH by (intros; apply Hyp; [done|by right]).
  f_equiv. rewrite buildTable_lookup, filter_fmap_pre.
  erewrite filter_ext_in; [done|].
  intros x Hx. simpl. symmetry. apply Hyp; [done|left].
Qed.

Lemma orient_sides a b l r lc rc :
  orient a b l r = Some (lc, rc) →
  sideOf lc l r = Some Left ∧ sideOf rc l r = Some Right ∧
  ((a = lc ∧ b = rc) ∨ (a = rc ∧ b = lc)).
Proof.
  unfold orient.
  destruct (sideOf a l r) as [[]|] eqn:Ha, (sideOf b l r) as [[]|] eqn:Hb;
    intros [= <- <-]; auto.
Qed.

Lemma holds_EQ (a b : Value) : holds EQ (compareValue a b) ↔ a = b.
Proof.
  rewrite <- compareValue_eq. by destruct (compareValue a b).
Qed.

(** Whatever the strategy, a join keeps the tuples its predicate keeps. *)
Lemma join_chosen g s p l r L R :
  isCore l → (∀ x, x ∈ L → x ∈ denote s l) →
  join (chooseStrategy g p l r) p L R ≡ₚ nestedLoop p L R.
Proof.
  intros Hcore HL. unfold chooseStrategy.
  destruct p as [|a [] b| | |]; try done.
  destruct (orient a b l r) as [[lc rc]|] eqn:Ho; [|done].
  apply orient_sides in Ho as (Hlc & Hrc & Hab).
  assert (∀ x y, x ∈ L → y ∈ R →
            evaluate (JoinPredicate a EQ b) (merge x y)
            ↔ getVal x lc = getVal y rc) as Hkey.
  { intros x y Hx Hy. cbn [evaluate]. rewrite holds_EQ.
    assert (getVal (merge x y) lc = getVal x lc) as El
      by (eapply getVal_side_l; eauto).
    assert (getVal (merge x y) rc = getVal y rc) as Er
      by (eapply getVal_side_r; eauto).
    destruct Hab as [[-> ->]|[-> ->]]; rewrite El, Er; [done|by split]. }
  assert (indexNestedLoop lc rc L R ≡ₚ nestedLoop (JoinPredicate a EQ b) L R)
    as Hinl.
  { unfold indexNestedLoop. rewrite (probe_right (JoinPredicate a EQ b)); [done|].
    intros x y Hx Hy. rewrite Hkey by done. by split. }
  assert (∀ side, hashJoin side lc rc L R
                  ≡ₚ nestedLoop (JoinPredicate a EQ b) L R) as Hhash.
  { intros [|]; simpl; [by apply probe_left|apply Hinl]. }
  destruct (indexed g lc && indexed g rc); [done|].
  destruct (knownRows g l), (knownRows g r); cbn [join]; try done; apply Hhash.
Qed.

Lemma nestedLoop_perm p L L' R R' :
  L ≡ₚ L' → R ≡ₚ R' → nestedLoop p L R ≡ₚ nestedLoop p L' R'.
Proof. intros HL HR. unfold nestedLoop. by rewrite (crossProduct_perm L L' R R'). Qed.

(** The plan of a core tree computes the rows the tree stands for. *)
Lemma physical_denote g s t :
  isCore t → relationOf s (PhysicalPlanFactory_create g t) ≡ₚ denote s t.
Proof.
  induction t as [tb|q c IH| |l IHl r IHr|q l IHl r IHr| | |];
    simpl; intros Hcore; try done.
  - by rewrite IH.
  - apply andb_True in Hcore as [Hl Hr].
    apply crossProduct_perm; auto.
  - apply andb_True in Hcore as [Hl Hr].
    rewrite (join_chosen g s q l r) by
      (done || intros x Hx; by rewrite <- (IHl Hl)).
    apply nestedLoop_perm; auto.
Qed.

End physical.

(** * The loop of [assertOrder], and stable sorting *)

Section assert_order.
Implicit Types (results : list ResultRow) (c : Column) (o : Order).

Lemma adjacent_cons {A} (R : A → A → Prop) (a b : A) (l : list A) :
  adjacent R (a :: b :: l) ↔ R a b ∧ adjacent R (b :: l).
Proof.
  split.
  - intros Hadj. split; [by apply (Hadj 0%nat)|].
    intros i x y Hx Hy. by apply (Hadj (S i)).
  - intros [Hab Hadj] [|i] x y Hx Hy.
    + simpl in Hx, Hy. by simplify_eq.
    + by apply (Hadj i).
Qed.

Lemma adjacent_one {A} (R : A → A → Prop) (a : A) : adjacent R [a].
Proof. intros [|i] x y Hx Hy; by simpl in Hy. Qed.

Lemma adjacent_nil {A} (R : A → A → Prop) : adjacent R [].
Proof. intros i x y Hx. by rewrite lookup_nil in Hx. Qed.

Lemma adjacent_reverse {A} (R : A → A → Prop) (l : list A) :
  adjacent R l → adjacent (flip R) (reverse l).
Proof.
  intros Hadj i a b Ha Hb.
  pose proof (lookup_lt_Some _ _ _ Hb) as Hlen. rewrite length_reverse in Hlen.
  rewrite reverse_lookup in Ha by lia. rewrite reverse_lookup in Hb by lia.
  apply (Hadj (length l - S (S i))%nat); [done|].
  by replace (S (length l - S (S i))) with (length l - S i)%nat by lia.
Qed.

Lemma ordered_adjacent {A} (R : A → A → Prop) (l : list A) :
  ordered R l → adjacent R l.
Proof. intros Hl i a b Ha Hb. apply (Hl i (S i)); [lia|done..]. Qed.

(** Once an assertion has thrown, or a comparison was not read, the
    rest of the list changes nothing. *)
Lemma assertOrder_over results c o (soFar : JsValue) (index : nat)
    (passed : option bool) :
  passed ≠ Some true →
  (foldl (λ '(soFar, index, passed) result,
            let value := jsProperty result (col_name c) in
            (value, S index,
             match passed with
             | Some true =>
                 if decide (0 < index)%nat
                 then match o with
                      | DESC => jsLe value soFar
                      | ASC => jsGe value soFar
                      end
                 else Some true
             | _ => passed
             end))
         (soFar, index, passed) results).2 = passed.
Proof.
  intros Hp. revert soFar index.
  induction results as [|x results IH]; intros soFar index; [done|].
  cbn [foldl]. destruct passed as [[]|]; [done|apply IH..].
Qed.

Lemma assertOrder_loop results c o (before : ResultRow) (index : nat) :
  (0 < index)%nat →
  (foldl (λ '(soFar, index, passed) result,
            let value := jsProperty result (col_name c) in
            (value, S index,
             match passed with
             | Some true =>
                 if decide (0 < index)%nat
                 then match o with
                      | DESC => jsLe value soFar
                      | ASC => jsGe value soFar
                      end
                 else Some true
             | _ => passed
             end))
         (jsProperty before (col_name c), index, Some true) results).2 = Some true
  ↔ adjacent (inOrder c o) (before :: results).
Proof.
  revert before index. induction results as [|x results IH]; intros before index Hi.
  - simpl. split; [|done]. intros _. apply adjacent_one.
  - cbn [foldl]. rewrite decide_True by done. rewrite adjacent_cons.
    set (asked := match o with
                  | DESC => jsLe (jsProperty x (col_name c)) (jsProperty before (col_name c))
                  | ASC => jsGe (jsProperty x (col_name c)) (jsProperty before (col_name c))
                  end).
    assert (inOrder c o before x ↔ asked = Some true) as Hasked.
    { unfold inOrder, asked. by destruct o. }
    destruct (decide (asked = Some true)) as [Hok|Hno].
    + rewrite Hok, IH by lia. rewrite Hasked. tauto.
    + rewrite assertOrder_over by done. rewrite Hasked. tauto.
Qed.

Lemma assertOrder_adjacent results c o :
  assertOrder results c o = Some true ↔ adjacent (inOrder c o) results.
Proof.
  unfold assertOrder. destruct results as [|x results].
  - simpl. split; [|done]. intros _. apply adjacent_nil.
  - cbn [foldl]. rewrite decide_False by lia. apply assertOrder_loop. lia.
Qed.

(** [value >= soFar] and [soFar <= value] ask the same of [value < soFar]. *)
Lemma jsGe_flip (value soFar : JsValue) : jsGe value soFar = jsLe soFar value.
Proof. done. Qed.

(** On numbers the comparisons of the tests are those of the integers. *)
Lemma jsGe_numbers (x y : Z) : jsGe (JsNumber y) (JsNumber x) = Some true ↔ x ≤ y.
Proof.
  unfold jsGe, jsLess. simpl. split.
  - intros [= H]. apply bool_decide_eq_true in H.
    injection H as H. apply bool_decide_eq_false in H. lia.
  - intros H. f_equal. apply bool_decide_eq_true. do 2 f_equal.
    apply bool_decide_eq_false. lia.
Qed.

Lemma valueLe_numbers (x y : Z) : valueLe (VInt x) (VInt y) ↔ x ≤ y.
Proof. unfold valueLe. simpl. by rewrite Z.compare_gt_iff, Z.nlt_ge. Qed.

(** The loop of [assertOrder] passes on flat rows that have a number in
    the column and come in the order of the numbers. *)
Lemma assertOrder_numbers results c o :
  (∀ r, r ∈ results → ∃ m z, r = FlatRow m ∧ m !! col_name c = Some (VInt z)) →
  ordered (λ a b, match o with
                  | DESC => valueLe (rowValue b c) (rowValue a c)
                  | ASC => valueLe (rowValue a c) (rowValue b c)
                  end) results →
  assertOrder results c o = Some true.
Proof.
  intros Hnum Hord. apply assertOrder_adjacent.
  intros i a b Ha Hb.
  pose proof (ordered_adjacent _ _ Hord i a b Ha Hb) as Hab.
  destruct (Hnum a) as (ma & x & -> & Hx); [by eapply list_elem_of_lookup_2|].
  destruct (Hnum b) as (mb & y & -> & Hy); [by eapply list_elem_of_lookup_2|].
  unfold inOrder. cbn [rowValue jsProperty] in *. rewrite Hx, Hy in *.
  cbn [default toJs id] in *.
  destruct o; rewrite valueLe_numbers in Hab.
  - by apply jsGe_numbers.
  - rewrite <- jsGe_flip. by apply jsGe_numbers.
Qed.

End assert_order.

Section stable_sorting.
Context {A : Type} (le : A → A → bool) (P : A → Prop) `{!∀ x, Decision (P x)}.
Hypothesis tied : ∀ a b, P a → P b → le a b.

(** The rows of a class of rows that may stand before each other keep
    their order. *)
Lemma insertSorted_filter x l :
  filter P (insertSorted le x l) = filter P (x :: l).
Proof.
  induction l as [|y l IH]; [done|]. cbn [insertSorted].
  destruct (le x y) eqn:Hle; [done|].
  rewrite filter_cons, IH, !filter_cons.
  destruct (decide (P y)) as [Hy|], (decide (P x)) as [Hx|]; try done.
  specialize (tied x y Hx Hy). by rewrite Hle in tied.
Qed.

Lemma stableSort_filter l : filter P (stableSort le l) = filter P l.
Proof.
  induction l as [|x l IH]; [done|].
  unfold stableSort in *. cbn [foldr].
  by rewrite insertSorted_filter, !filter_cons, IH.
Qed.

End stable_sorting.

Lemma filter_all {A} (P : A → Prop) `{!∀ x, Decision (P x)} (l : list A) :
  (∀ x, P x) → filter P l = l.
Proof.
  intros HP. induction l as [|x l IH]; [done|].
  by rewrite filter_cons, decide_True, IH.
Qed.

Section bounds.
Context {A : Type}.
Implicit Types (q : SelectContext) (l : list A).

Lemma bounded_fmap {B} (f : A → B) q l :
  f <$> bounded q l = bounded q (f <$> l).
Proof.
  unfold bounded. destruct (skip q), (limit q); by rewrite ?fmap_take, ?fmap_drop.
Qed.

Lemma bounded_elem_of q l x : x ∈ bounded q l → x ∈ l.
Proof.
  unfold bounded. intros Hx.
  destruct (limit q); [apply subseteq_take in Hx|];
    (destruct (skip q); [by apply subseteq_drop in Hx|done]).
Qed.

Lemma ordered_bounded (R : A → A → Prop) q l :
  ordered R l → ordered R (bounded q l).
Proof.
  unfold bounded. intros Hl.
  destruct (skip q), (limit q); auto using ordered_take, ordered_drop.
Qed.

Lemma bounded_whole q l : skip q = None → limit q = None → bounded q l = l.
Proof. unfold bounded. by intros -> ->. Qed.

End bounds.
Section memory_table_claims.
Implicit Types (this : MemoryTable.t) (ids : list Z) (rows : list Row.t).
Implicit Types (r : Row.t).

Lemma keyed_jobs : MemoryTable.keyed Sample.jobs.
Proof. apply keyed_put, keyed_new. Defined.

Lemma stored_keyed this r :
  MemoryTable.keyed this →
  MemoryTable.stored this r ↔ MemoryTable.data_ this !! Row.id r = Some r.
Proof.
  intros Hk. split; [|by exists (Row.id r)].
  intros [k Hr]. by rewrite (Hk _ _ Hr).
Qed.

(** C1. [get(ids)] never fails; on the empty list it answers with all
    the stored rows, on a non-empty list with exactly the stored rows
    whose identity occurs in the list, ids that are not present
    contributing nothing. *)
Theorem get_returns_requested_rows this ids :
  MemoryTable.keyed this →
  ∃ rows, MemoryTable.get this ids = resolve rows ∧
    (ids = [] →
       length rows = structs_Map.getCount (MemoryTable.data_ this) ∧
       ∀ r, r ∈ rows ↔ MemoryTable.stored this r) ∧
    (ids ≠ [] →
       ∀ r, r ∈ rows ↔ MemoryTable.stored this r ∧ Row.id r ∈ ids).
Proof.
  intros Hk. destruct ids as [|i ids].
  - eexists. split; [apply get_empty|]. split; [|done].
    intros _. split; [apply getValues_length|].
    intros r. apply getValues_elem.
  - eexists. split; [by apply get_nonempty|]. split; [done|].
    intros _ r. rewrite elem_of_omap_lookup. split.
    + intros (k & Hin & Hr). split; [by exists k|]. by rewrite (Hk _ _ Hr).
    + intros [Hs Hin]. exists (Row.id r). split; [done|].
      by apply stored_keyed.
Qed.

Lemma get_returns_requested_rows_witness :
  ∃ rows, MemoryTable.get Sample.jobs [3; 7; 1] = resolve rows ∧
    ([3; 7; 1] = [] →
       length rows = structs_Map.getCount (MemoryTable.data_ Sample.jobs) ∧
       ∀ r, r ∈ rows ↔ MemoryTable.stored Sample.jobs r) ∧
    ([3; 7; 1] ≠ [] →
       ∀ r, r ∈ rows ↔ MemoryTable.stored Sample.jobs r ∧ Row.id r ∈ [3; 7; 1]).
Proof. apply (get_returns_requested_rows Sample.jobs [3; 7; 1]), keyed_jobs. Defined.

(** C2. [remove(ids)] clears the table when [ids] is empty or has as
    many elements as the table has rows; otherwise the table keeps
    exactly the rows whose identity is not in [ids]. *)
Theorem remove_clears_or_deletes this ids :
  MemoryTable.keyed this →
  (MemoryTable.remove this ids).2 = resolve () ∧
  (ids = [] ∨ length ids = structs_Map.getCount (MemoryTable.data_ this) →
     MemoryTable.data_ (MemoryTable.remove this ids).1 = ∅) ∧
  (¬ (ids = [] ∨ length ids = structs_Map.getCount (MemoryTable.data_ this)) →
     ∀ r, MemoryTable.stored (MemoryTable.remove this ids).1 r
          ↔ MemoryTable.stored this r ∧ Row.id r ∉ ids).
Proof.
  intros Hk. unfold MemoryTable.remove.
  destruct (decide _) as [Hall|Hsome]; simpl.
  - split; [done|]. split; [done|].
    intros Hn. destruct Hn. destruct Hall as [Hl|Hl]; [left|by right].
    by destruct ids.
  - split; [done|]. split.
    { intros [->|Hl]; destruct Hsome; [by left|by right]. }
    intros _ r. unfold MemoryTable.stored; simpl. split.
    + intros [k Hr]. rewrite remove_loop_lookup in Hr.
      case_decide as Hin; [done|]. split; [by exists k|].
      by rewrite (Hk _ _ Hr).
    + intros [[k Hr] Hnin]. exists k. rewrite remove_loop_lookup.
      rewrite decide_False; [done|]. by rewrite <- (Hk _ _ Hr).
Qed.

Lemma remove_clears_or_deletes_witness :
  (MemoryTable.remove Sample.jobs [2; 9]).2 = resolve () ∧
  ([2; 9] = [] ∨ length [2; 9] = structs_Map.getCount (MemoryTable.data_ Sample.jobs) →
     MemoryTable.data_ (MemoryTable.remove Sample.jobs [2; 9]).1 = ∅) ∧
  (¬ ([2; 9] = [] ∨ length [2; 9] = structs_Map.getCount (MemoryTable.data_ Sample.jobs)) →
     ∀ r, MemoryTable.stored (MemoryTable.remove Sample.jobs [2; 9]).1 r
          ↔ MemoryTable.stored Sample.jobs r ∧ Row.id r ∉ [2; 9]).
Proof. apply (remove_clears_or_deletes Sample.jobs [2; 9]), keyed_jobs. Defined.

Lemma omap_fmap_cancel {A B} (f : B → option A) (g : A → B) (l : list A) :
  (∀ x, x ∈ l → f (g x) = Some x) → omap f (g <$> l) = l.
Proof.
  induction l as [|x l IH]; intros Hl; [done|].
  cbn. rewrite (Hl x) by left. cbn. f_equal. apply IH.
  intros y Hy. apply Hl. by right.
Qed.

(** C3, amended. For a list of rows in which rows of equal identity are
    equal, and which is empty only when the table is, [put(rows)]
    followed by [get] on the identities of the rows answers with the
    very list [rows]. *)
Theorem put_then_get_distinct this rows :
  (rows = [] → MemoryTable.data_ this = ∅) →
  (∀ r1 r2, r1 ∈ rows → r2 ∈ rows → Row.id r1 = Row.id r2 → r1 = r2) →
  (MemoryTable.put this rows).2 = resolve () ∧
  MemoryTable.get (MemoryTable.put this rows).1 (Row.id <$> rows) = resolve rows.
Proof.
  intros Hne Hinj. split; [done|].
  destruct (decide (rows = [])) as [->|Hrows].
  { rewrite get_empty. simpl. rewrite Hne by done.
    unfold structs_Map.getValues. by rewrite map_to_list_empty. }
  rewrite get_nonempty by (by destruct rows).
  f_equal. apply omap_fmap_cancel. intros r Hr. simpl.
  rewrite put_loop_lookup.
  destruct (last _) as [r'|] eqn:Hl.
  - apply last_Some_elem_of, list_elem_of_filter in Hl as [Hid Hin].
    f_equal. by apply Hinj.
  - apply last_None in Hl.
    assert (r ∈ filter (λ r0, Row.id r0 = Row.id r) rows) as Hf
      by (by apply list_elem_of_filter).
    rewrite Hl in Hf. by apply not_elem_of_nil in Hf.
Qed.

Lemma put_then_get_distinct_witness :
  (MemoryTable.put Sample.jobs [Sample.clerk'; Sample.pilot]).2 = resolve () ∧
  MemoryTable.get (MemoryTable.put Sample.jobs [Sample.clerk'; Sample.pilot]).1
                  (Row.id <$> [Sample.clerk'; Sample.pilot])
  = resolve [Sample.clerk'; Sample.pilot].
Proof.
  apply (put_then_get_distinct Sample.jobs [Sample.clerk'; Sample.pilot]).
  - discriminate.
  - intros r1 r2 H1 H2.
    apply elem_of_cons in H1 as [->|H1]; [|apply list_elem_of_singleton in H1 as ->];
    (apply elem_of_cons in H2 as [->|H2]; [|apply list_elem_of_singleton in H2 as ->]);
    vm_compute; congruence.
Defined.

(** C3 as stated fails: after [put([])] the ids list is empty and [get]
    answers with the whole table; and of two rows put under one
    identity only the later one comes back. *)
Lemma put_then_get_counterexample :
  (MemoryTable.get (MemoryTable.put Sample.pilots []).1 (Row.id <$> [])
   = resolve [Sample.pilot]
   ∧ ¬ (∀ r, r ∈ [Sample.pilot] ↔ r ∈ @nil Row.t))
  ∧
  (MemoryTable.get (MemoryTable.put MemoryTable.new [Sample.clerk; Sample.clerk']).1
                   (Row.id <$> [Sample.clerk; Sample.clerk'])
   = resolve [Sample.clerk'; Sample.clerk']
   ∧ ¬ (∀ r, r ∈ [Sample.clerk'; Sample.clerk'] ↔ r ∈ [Sample.clerk; Sample.clerk'])).
Proof.
  split; split.
  - vm_compute. reflexivity.
  - intros H. specialize (H Sample.pilot). destruct H as [H _].
    eapply not_elem_of_nil, H. left.
  - vm_compute. reflexivity.
  - intros H. specialize (H Sample.clerk). destruct H as [_ H].
    specialize (H ltac:(left)).
    apply elem_of_cons in H as [H|H]; [discriminate H|].
    apply list_elem_of_singleton in H. discriminate H.
Qed.

Lemma remove_lookup_in this ids k :
  k ∈ ids → MemoryTable.data_ (MemoryTable.remove this ids).1 !! k = None.
Proof.
  intros Hin. unfold MemoryTable.remove. case_decide; cbn [fst MemoryTable.data_].
  - apply lookup_empty.
  - rewrite remove_loop_lookup. by rewrite decide_True.
Qed.

(** C4. After [remove(ids)], for ids all present in the table, [get(ids)]
    answers with no row. *)
Theorem remove_then_get_empty this ids :
  (∀ i, i ∈ ids → ∃ r, MemoryTable.stored this r ∧ Row.id r = i) →
  MemoryTable.get (MemoryTable.remove this ids).1 ids = resolve [].
Proof.
  intros _. destruct (decide (ids = [])) as [->|Hne]; [done|].
  rewrite get_nonempty by done. f_equal.
  apply elem_of_nil_inv. intros r.
  rewrite elem_of_omap_lookup. intros (k & Hin & Hr).
  by rewrite remove_lookup_in in Hr.
Qed.

Lemma remove_then_get_empty_witness :
  MemoryTable.get (MemoryTable.remove Sample.jobs [3; 1]).1 [3; 1] = resolve [].
Proof.
  apply (remove_then_get_empty Sample.jobs [3; 1]).
  intros i Hi. apply elem_of_cons in Hi as [->|Hi];
    [|apply list_elem_of_singleton in Hi as ->].
  - exists Sample.pilot. split; [exists 3; vm_compute|]; reflexivity.
  - exists Sample.clerk. split; [exists 1; vm_compute|]; reflexivity.
Defined.

(** C10. On a non-empty list, [get] answers with the rows found, in the
    order of their ids in the list, absent ids leaving no trace. *)
Theorem get_follows_ids_order this ids :
  ids ≠ [] →
  MemoryTable.get this ids
  = resolve (omap (λ id, MemoryTable.data_ this !! id) ids).
Proof. apply get_nonempty. Qed.

Lemma get_follows_ids_order_witness :
  MemoryTable.get Sample.jobs [3; 7; 1; 3]
  = resolve (omap (λ id, MemoryTable.data_ Sample.jobs !! id) [3; 7; 1; 3]).
Proof. apply (get_follows_ids_order Sample.jobs [3; 7; 1; 3]). done. Defined.

End memory_table_claims.

(** * The query engine *)


(** * Selects, end to end *)

Section select_claims.
Implicit Types (e x y : RelationEntry) (L R : Relation) (p : Predicate).
Implicit Types (c : Column) (t l r : LogicalNode) (s : Store) (g : Global).
Implicit Types (q : SelectContext).

(** A select runs to its end: its plan is made and run. *)
Lemma select_exec_outcome g s q :
  let plan := PhysicalPlanFactory_create g (LogicalPlanFactory_create q) in
  outcome (select_exec (DefaultQueryEngine_new g) q) s
          (shape (planTables plan) <$> relationOf s plan).
Proof.
  intros plan. unfold select_exec.
  eapply outcome_bind; [done|].
  unfold execute. eapply outcome_bind; [apply execNode_outcome|done].
Qed.

Lemma shape_wrap table (row : Row.t) :
  shape [table] (wrap table row) = FlatRow (Row.payload row).
Proof. unfold shape, wrap. simpl. by rewrite lookup_total_singleton_eq. Qed.

Lemma accessTree_core q : isCore (accessTree q).
Proof.
  unfold accessTree.
  assert (∀ more acc, isCore acc →
            isCore (foldl (λ acc table, LCrossProduct acc (LTableAccess table))
                          acc more)) as Hmore.
  { induction more as [|tb more IH]; intros acc Hacc; [done|].
    simpl. apply IH. simpl. by rewrite andb_True. }
  assert (∀ js acc, isCore acc →
            isCore (foldl (λ acc '(table, p), LJoin p acc (LTableAccess table))
                          acc js)) as Hjs.
  { induction js as [|[tb p] js IH]; intros acc Hacc; [done|].
    simpl. apply IH. simpl. by rewrite andb_True. }
  by apply Hjs, Hmore.
Qed.

Lemma accessTree_tables q : tables (accessTree q) = scope q.
Proof.
  unfold accessTree, scope.
  assert (∀ more acc,
            tables (foldl (λ acc table, LCrossProduct acc (LTableAccess table))
                          acc more) = tables acc ++ more) as Hmore.
  { induction more as [|tb more IH]; intros acc; simpl.
    - by rewrite app_nil_r.
    - rewrite IH. simpl. by rewrite <- app_assoc. }
  assert (∀ js acc,
            tables (foldl (λ acc '(table, p), LJoin p acc (LTableAccess table))
                          acc js) = tables acc ++ js.*1) as Hjs.
  { induction js as [|[tb p] js IH]; intros acc; simpl.
    - by rewrite app_nil_r.
    - rewrite IH. simpl. by rewrite <- app_assoc. }
  rewrite Hjs, Hmore. simpl. done.
Qed.

Lemma narrow_tables needed t : tables (narrow needed t) = tables t.
Proof.
  induction t; simpl; try congruence. by case_match.
Qed.

Lemma pushProjections_tables keep t : tables (pushProjections keep t) = tables t.
Proof.
  revert keep. induction t; intros keep; simpl; try done.
  repeat case_match; simpl; by rewrite ?narrow_tables.
Qed.

Lemma initialTree_tables q : tables (initialTree q) = scope q.
Proof.
  unfold initialTree.
  destruct (limit q), (skip q), (orderBy q), (where_ q); simpl;
    apply accessTree_tables.
Qed.

(** The tables of the plan of a select are the tables in its scope. *)
Lemma plan_tables g q :
  planTables (PhysicalPlanFactory_create g (LogicalPlanFactory_create q)) = scope q.
Proof.
  rewrite planTables_create. unfold LogicalPlanFactory_create.
  by rewrite pushProjections_tables, inferJoins_tables, pushDownSelects_tables,
    initialTree_tables.
Qed.

(** The tree of the from list and of the where clause. *)
Lemma selected_core q :
  isCore (match where_ q with
          | Some p => LSelect p (accessTree q)
          | None => accessTree q
          end).
Proof. destruct (where_ q); simpl; apply accessTree_core. Qed.

(** A select of all the columns, unordered and whole, computes the rows
    of its from list that its where clause keeps. *)
Lemma star_relation g s q :
  columns q = [] → aggregators q = [] → orderBy q = [] →
  skip q = None → limit q = None →
  relationOf s (PhysicalPlanFactory_create g (LogicalPlanFactory_create q))
  ≡ₚ denote s (match where_ q with
               | Some p => LSelect p (accessTree q)
               | None => accessTree q
               end).
Proof.
  intros Hc Ha Ho Hs Hl. pose proof (selected_core q) as Hcore.
  unfold LogicalPlanFactory_create, initialTree.
  rewrite Hc, Ha, Ho, Hs, Hl.
  set (tree := match where_ q with
               | Some p => LSelect p (accessTree q)
               | None => accessTree q
               end) in *.
  cbn [pushDownSelects inferJoins pushProjections PhysicalPlanFactory_create
       relationOf project].
  rewrite physical_denote by (by apply inferJoins_core, pushDownSelects_core).
  rewrite inferJoins_denote by (by apply pushDownSelects_core).
  by rewrite pushDownSelects_denote.
Qed.

(** C6. A select over one table with a where predicate answers with
    the rows of the table on which the predicate is true, each once,
    and with nothing else. *)
Theorem select_where_filters g s (table : string) p :
  ∃ rows,
    outcome (select_exec (DefaultQueryEngine_new g)
               (mkSelect table [] [] (Some p) [] [] [] None None)) s rows ∧
    rows ≡ₚ (λ row, FlatRow (Row.payload row))
            <$> filter (λ row, evaluate p (wrap table row)) (tableRows s table) ∧
    ∀ res, res ∈ rows ↔
         ∃ row, MemoryTable.stored (s !!! table) row ∧
                evaluate p (wrap table row) ∧ res = FlatRow (Row.payload row).
Proof.
  eexists. split; [apply select_exec_outcome|].
  assert (∀ rel : list ResultRow,
            rel ≡ₚ (λ row, FlatRow (Row.payload row))
                   <$> filter (λ row, evaluate p (wrap table row)) (tableRows s table) →
            ∀ res, res ∈ rel ↔
              ∃ row, MemoryTable.stored (s !!! table) row ∧
                     evaluate p (wrap table row) ∧ res = FlatRow (Row.payload row))
    as Hmem.
  { intros rel Hrel res. rewrite Hrel, list_elem_of_fmap. split.
    - intros (row & -> & [Hp Hrow]%list_elem_of_filter). exists row.
      split; [by apply getValues_elem|done].
    - intros (row & Hrow & Hp & ->). exists row. split; [done|].
      apply list_elem_of_filter. split; [done|]. by apply getValues_elem. }
  match goal with |- ?A ∧ _ => assert A as Hperm end; [|by auto].
  rewrite plan_tables, star_relation by done. cbn.
  rewrite filter_fmap_pre, <- list_fmap_compose.
  erewrite list_fmap_ext; [done|]. intros i row _. apply shape_wrap.
Qed.

Lemma crossProduct_comm L R :
  (∀ x y, x ∈ L → y ∈ R → merge x y = merge y x) →
  crossProduct L R ≡ₚ crossProduct R L.
Proof.
  intros Hyp. unfold crossProduct at 2. rewrite (product_swap merge R L).
  apply eq_subrelation; [apply _|].
  induction L as [|x L IH]; [done|].
  rewrite crossProduct_cons, bind_cons, IH by (intros; apply Hyp; [by right|done]).
  f_equal. apply list_fmap_ext. intros i y Hy. apply Hyp; [left|].
  by eapply list_elem_of_lookup_2.
Qed.

Lemma merge_wrap_comm (t1 t2 : string) (a b : Row.t) :
  t1 ≠ t2 → merge (wrap t1 a) (wrap t2 b) = merge (wrap t2 b) (wrap t1 a).
Proof.
  intros Hne. unfold merge, wrap. apply map_union_comm.
  by apply map_disjoint_singleton_l, lookup_singleton_ne.
Qed.

(** C9. A select from two tables answers with the same composite rows,
    each keyed by table name, whichever table the from list names
    first. *)
Theorem implicit_join_either_order g s (t1 t2 : string) p :
  ∃ rows rows',
    outcome (select_exec (DefaultQueryEngine_new g)
               (mkSelect t1 [t2] [] (Some p) [] [] [] None None)) s rows ∧
    outcome (select_exec (DefaultQueryEngine_new g)
               (mkSelect t2 [t1] [] (Some p) [] [] [] None None)) s rows' ∧
    rows ≡ₚ rows' ∧
    ∀ res, res ∈ rows ↔
      ∃ a b, a ∈ tableRows s t1 ∧ b ∈ tableRows s t2 ∧
             evaluate p (merge (wrap t1 a) (wrap t2 b)) ∧
             res = CompositeRow (merge (wrap t1 a) (wrap t2 b)).
Proof.
  do 2 eexists. split; [apply select_exec_outcome|].
  split; [apply select_exec_outcome|].
  rewrite !plan_tables.
  assert (∀ u v : string,
    relationOf s (PhysicalPlanFactory_create g (LogicalPlanFactory_create
      (mkSelect u [v] [] (Some p) [] [] [] None None)))
    ≡ₚ filter (λ e, evaluate p e)
         (crossProduct (wrap u <$> tableRows s u) (wrap v <$> tableRows s v)))
    as Hrel by (intros; by rewrite star_relation).
  rewrite !Hrel. unfold scope, shape. cbn [from from_more joins fmap list_fmap app].
  split.
  - destruct (decide (t1 = t2)) as [->|Hne]; [done|].
    do 2 f_equiv. apply crossProduct_comm. intros x y Hx Hy.
    apply list_elem_of_fmap in Hx as (a & -> & _).
    apply list_elem_of_fmap in Hy as (b & -> & _).
    by apply merge_wrap_comm.
  - intros res. rewrite Hrel, list_elem_of_fmap. split.
    + intros (e & -> & He). apply list_elem_of_filter in He as [Hp He].
      apply elem_of_crossProduct in He as (x & y & -> & Hx & Hy).
      apply list_elem_of_fmap in Hx as (a & -> & Ha).
      apply list_elem_of_fmap in Hy as (b & -> & Hb).
      by exists a, b.
    + intros (a & b & Ha & Hb & Hp & ->). eexists. split; [done|].
      apply list_elem_of_filter. split; [done|].
      apply elem_of_crossProduct. do 2 eexists. split; [done|].
      split; apply list_elem_of_fmap; eauto.
Qed.

Lemma rowValue_shape sc e c :
  col_table c ∈ sc → rowValue (shape sc e) c = getVal e c.
Proof.
  intros Hin. destruct sc as [|table [|table' sc]]; simpl; try done.
  apply list_elem_of_singleton in Hin as <-.
  unfold getVal. rewrite lookup_total_alt.
  by destruct (e !! col_table c).
Qed.

(** The answer of an ordered select comes in the order of its one
    comparator, whatever is skipped or cut off. *)
Lemma plan_ordered g s q :
  orderBy q ≠ [] →
  ordered (λ a b, precedes (orderBy q) a b)
          (relationOf s (PhysicalPlanFactory_create g (LogicalPlanFactory_create q))).
Proof.
  intros Hspecs.
  assert (∀ rel, ordered (λ a b, precedes (orderBy q) a b)
                         (stableSort (precedes (orderBy q)) rel)) as Hsorted.
  { intros rel. apply StronglySorted_ordered, stableSort_sorted.
    - apply precedes_total.
    - apply precedes_trans. }
  unfold LogicalPlanFactory_create, initialTree.
  destruct (orderBy q) as [|spec specs] eqn:Ho; [done|].
  destruct (limit q), (skip q), (columns q), (aggregators q);
    cbn [pushDownSelects inferJoins pushProjections PhysicalPlanFactory_create
         relationOf];
    auto using ordered_take_drop, ordered_take, ordered_drop.
Qed.

Lemma precedes_desc_asc c1 c2 a b :
  precedes [(c1, DESC); (c2, ASC)] a b →
  valueLe (getVal b c1) (getVal a c1) ∧
  (getVal a c1 = getVal b c1 → valueLe (getVal a c2) (getVal b c2)).
Proof.
  unfold precedes, valueLe. simpl.
  rewrite (compareValue_antisym (getVal a c1) (getVal b c1)).
  destruct (compareValue (getVal a c1) (getVal b c1)) eqn:H1; simpl.
  - intros H2. split; [done|]. intros _.
    by destruct (compareValue (getVal a c2) (getVal b c2)).
  - done.
  - intros _. split; [done|]. intros Heq%compareValue_eq. congruence.
Qed.

Lemma ordered_cons {A} (R : A → A → Prop) (a : A) (l : list A) :
  ordered R (a :: l) ↔ Forall (R a) l ∧ ordered R l.
Proof.
  split.
  - intros Hl. split.
    + apply Forall_lookup. intros i b Hb. apply (Hl 0%nat (S i)); [lia|done..].
    + intros i j b b' Hij Hi Hj. apply (Hl (S i) (S j)); [lia|done..].
  - intros [Ha Hl] i j b b' Hij Hi Hj.
    destruct j as [|j]; [lia|]. simpl in Hj. destruct i as [|i]; simpl in Hi.
    + injection Hi as <-. rewrite Forall_forall in Ha.
      apply Ha. by eapply list_elem_of_lookup_2.
    + apply (Hl i j); [lia|done..].
Qed.

Lemma ordered_filter {A} (R : A → A → Prop) (P : A → Prop)
    `{!∀ a, Decision (P a)} (l : list A) :
  ordered R l → ordered R (filter P l).
Proof.
  induction l as [|a l IH]; [done|].
  intros [Ha Hl]%ordered_cons. rewrite filter_cons.
  destruct (decide (P a)); [|by apply IH].
  apply ordered_cons. split; [|by apply IH].
  rewrite Forall_forall in Ha. apply Forall_forall.
  intros b [_ Hb]%list_elem_of_filter. by apply Ha.
Qed.

Lemma ordered_impl {A} (R R' : A → A → Prop) (l : list A) :
  (∀ a b, a ∈ l → b ∈ l → R a b → R' a b) → ordered R l → ordered R' l.
Proof.
  intros Hyp Hl i j a b Hij Hi Hj.
  apply Hyp; [by eapply list_elem_of_lookup_2..|]. by apply (Hl i j).
Qed.

Lemma bucket_lookup (array : list ResultRow) sorter k partial :
  bucket array sorter !! k = Some partial →
  partial = filter (λ row, sorter row = k) array.
Proof.
  unfold bucket.
  assert (∀ (rs : list ResultRow) (buckets : gmap Value (list ResultRow)),
            foldl (λ buckets value,
                     <[sorter value := buckets !!! sorter value ++ [value]]> buckets)
                  buckets rs !!! k
            = buckets !!! k ++ filter (λ row, sorter row = k) rs) as Hloop.
  { induction rs as [|row rs IH]; intros buckets; simpl.
    - by rewrite app_nil_r.
    - rewrite IH, filter_cons. destruct (decide (sorter row = k)) as [<-|Hne].
      + by rewrite lookup_total_insert_eq, <- app_assoc.
      + by rewrite lookup_total_insert_ne. }
  intros Hk. specialize (Hloop array ∅).
  rewrite lookup_total_alt, Hk, lookup_total_empty in Hloop. done.
Qed.

(** A select of all the columns sorts what the same select without
    order-by, skip and limit computes, and then skips and cuts. *)
Lemma star_sorted_plan g s q :
  columns q = [] → aggregators q = [] →
  relationOf s (PhysicalPlanFactory_create g (LogicalPlanFactory_create q))
  = bounded q
      (match orderBy q with
       | [] => id
       | specs => stableSort (precedes specs)
       end (relationOf s (PhysicalPlanFactory_create g
                            (LogicalPlanFactory_create (unordered q))))).
Proof.
  unfold LogicalPlanFactory_create, initialTree, unordered, bounded, accessTree.
  destruct q as [tb more js w cols aggs specs sk lim].
  cbn [from from_more joins where_ columns aggregators orderBy skip limit].
  intros -> ->.
  destruct sk, lim, specs;
    cbn [pushDownSelects inferJoins pushProjections PhysicalPlanFactory_create
         relationOf project id]; reflexivity.
Qed.

Lemma star_sorted_rows g s q :
  columns q = [] → aggregators q = [] → orderBy q ≠ [] →
  ∃ rel,
    outcome (select_exec (DefaultQueryEngine_new g) (unordered q)) s
            (shape (scope q) <$> rel) ∧
    shape (planTables (PhysicalPlanFactory_create g (LogicalPlanFactory_create q)))
      <$> relationOf s (PhysicalPlanFactory_create g (LogicalPlanFactory_create q))
    = bounded q (shape (scope q) <$> stableSort (precedes (orderBy q)) rel).
Proof.
  intros Hc Ha Ho. eexists. split.
  - pose proof (select_exec_outcome g s (unordered q)) as Hrun.
    cbn zeta in Hrun. rewrite plan_tables in Hrun. exact Hrun.
  - rewrite plan_tables, star_sorted_plan, bounded_fmap by done.
    by destruct (orderBy q).
Qed.

(** Over one table, a select of all the columns answers with rows of
    the table that the where clause keeps. *)
Lemma single_table_rows g s q :
  columns q = [] → aggregators q = [] → from_more q = [] → joins q = [] →
  shape (scope q) <$> relationOf s (PhysicalPlanFactory_create g
                                      (LogicalPlanFactory_create (unordered q)))
  ≡ₚ (λ row, FlatRow (Row.payload row)) <$> filter (kept q) (tableRows s (from q)).
Proof.
  intros Hc Ha Hm Hj. rewrite (star_relation g s (unordered q)) by done.
  unfold scope, accessTree, unordered.
  cbn [from from_more joins where_]. rewrite Hm, Hj. cbn [foldl fmap list_fmap app].
  destruct (where_ q) as [p|] eqn:Hw; cbn [denote].
  - rewrite filter_fmap_pre, <- list_fmap_compose.
    rewrite (list_filter_iff (kept q) (λ row, evaluate p (wrap (from q) row)))
      by (intros row; unfold kept; by rewrite Hw).
    apply Permutation_refl'. apply list_fmap_ext. intros i row _. apply shape_wrap.
  - rewrite (filter_all (kept q)) by (intros row; unfold kept; by rewrite Hw).
    rewrite <- list_fmap_compose.
    apply Permutation_refl'. apply list_fmap_ext. intros i row _. apply shape_wrap.
Qed.

Lemma single_table_sorted g s q :
  columns q = [] → aggregators q = [] → from_more q = [] → joins q = [] →
  ∃ sorted,
    sorted ≡ₚ (λ row, FlatRow (Row.payload row))
              <$> filter (kept q) (tableRows s (from q)) ∧
    shape (planTables (PhysicalPlanFactory_create g (LogicalPlanFactory_create q)))
      <$> relationOf s (PhysicalPlanFactory_create g (LogicalPlanFactory_create q))
    = bounded q sorted.
Proof.
  intros Hc Ha Hm Hj. eexists. split; last first.
  - rewrite plan_tables, star_sorted_plan, bounded_fmap by done. reflexivity.
  - rewrite <- (single_table_rows g s q) by done. apply fmap_Permutation.
    destruct (orderBy q); [reflexivity|apply stableSort_perm].
Qed.

(** The rows that a select over one table answers with are payloads of
    stored rows. *)
Lemma bounded_stored s q (sorted rows : list ResultRow) :
  sorted ≡ₚ (λ row, FlatRow (Row.payload row))
            <$> filter (kept q) (tableRows s (from q)) →
  rows = bounded q sorted →
  ∀ res, res ∈ rows →
    ∃ row, MemoryTable.stored (s !!! from q) row ∧ res = FlatRow (Row.payload row).
Proof.
  intros Hperm -> res Hres%bounded_elem_of. rewrite Hperm in Hres.
  apply list_elem_of_fmap in Hres as (row & -> & [_ Hrow]%list_elem_of_filter).
  exists row. split; [by apply getValues_elem|done].
Qed.

(** C7. A select ordered by a first column descending and a second
    column ascending answers with rows whose first column never
    increases and, among rows of equal first column, whose second
    column never decreases.  When it selects all the columns, its rows
    are those of the same select without order-by, skip and limit,
    sorted by the one comparator, rows that tie on both columns left in
    their order, and then skipped and cut.  Over a single table with
    numbers in both columns, the rows are rows of the table, as many as
    the table holds when nothing is filtered, skipped or cut, and the
    assertions of the test on the order pass. *)
Theorem order_by_desc_then_asc g s q c1 c2 :
  orderBy q = [(c1, DESC); (c2, ASC)] →
  col_table c1 ∈ scope q → col_table c2 ∈ scope q →
  ∃ rows,
    outcome (select_exec (DefaultQueryEngine_new g) q) s rows ∧
    ordered (λ a b, valueLe (rowValue b c1) (rowValue a c1) ∧
                    (rowValue a c1 = rowValue b c1 →
                     valueLe (rowValue a c2) (rowValue b c2))) rows ∧
    (columns q = [] → aggregators q = [] →
     ∃ unsorted sorted,
       outcome (select_exec (DefaultQueryEngine_new g) (unordered q)) s unsorted ∧
       sorted ≡ₚ unsorted ∧
       ordered (λ a b, valueLe (rowValue b c1) (rowValue a c1) ∧
                       (rowValue a c1 = rowValue b c1 →
                        valueLe (rowValue a c2) (rowValue b c2))) sorted ∧
       (∀ v1 v2,
          filter (λ res, rowValue res c1 = v1 ∧ rowValue res c2 = v2) sorted
          = filter (λ res, rowValue res c1 = v1 ∧ rowValue res c2 = v2) unsorted) ∧
       rows = bounded q sorted) ∧
    (columns q = [] → aggregators q = [] → from_more q = [] → joins q = [] →
     (∀ row, MemoryTable.stored (s !!! from q) row →
        ∃ z1 z2, Row.payload row !! col_name c1 = Some (VInt z1) ∧
                 Row.payload row !! col_name c2 = Some (VInt z2)) →
     (∃ sorted,
        sorted ≡ₚ (λ row, FlatRow (Row.payload row))
                  <$> filter (kept q) (tableRows s (from q)) ∧
        rows = bounded q sorted) ∧
     (where_ q = None → skip q = None → limit q = None →
      length rows = structs_Map.getCount (MemoryTable.data_ (s !!! from q))) ∧
     assertOrder rows c1 DESC = Some true ∧
     ∀ k partialResults,
       bucket rows (λ result, rowValue result c1) !! k = Some partialResults →
       assertOrder partialResults c2 ASC = Some true).
Proof.
  intros Ho H1 H2. eexists. split; [apply select_exec_outcome|].
  assert (∀ a b : RelationEntry,
            precedes [(c1, DESC); (c2, ASC)] a b →
            valueLe (rowValue (shape (scope q) b) c1) (rowValue (shape (scope q) a) c1) ∧
            (rowValue (shape (scope q) a) c1 = rowValue (shape (scope q) b) c1 →
             valueLe (rowValue (shape (scope q) a) c2)
                     (rowValue (shape (scope q) b) c2))) as Hlex.
  { intros a b Hab. rewrite !rowValue_shape by done. by apply precedes_desc_asc. }
  match goal with |- ?P ∧ _ => assert P as Hord end.
  { rewrite plan_tables.
    eapply ordered_fmap; [|apply plan_ordered; by rewrite Ho].
    intros a b Hab. rewrite Ho in Hab. by apply Hlex. }
  split; [done|]. split.
  - intros Hc Ha.
    destruct (star_sorted_rows g s q Hc Ha) as (rel & Hrun & Hrows);
      [by rewrite Ho|].
    exists (shape (scope q) <$> rel),
           (shape (scope q) <$> stableSort (precedes (orderBy q)) rel).
    split; [done|]. split; [apply fmap_Permutation, stableSort_perm|].
    split; [|split; [|done]].
    + eapply ordered_fmap; [|apply StronglySorted_ordered, stableSort_sorted;
                               [apply precedes_total|apply precedes_trans]].
      intros a b Hab. rewrite Ho in Hab. by apply Hlex.
    + intros v1 v2. rewrite !filter_fmap_pre. f_equal.
      apply stableSort_filter. intros a b [Ha1 Ha2] [Hb1 Hb2].
      rewrite !rowValue_shape in * by done.
      rewrite Ho. unfold precedes. cbn [compareEntries directed].
      by rewrite Ha1, Ha2, Hb1, Hb2, !compareValue_refl.
  - intros Hc Ha Hm Hj Hnum.
    destruct (single_table_sorted g s q Hc Ha Hm Hj) as (sorted & Hperm & Hrows).
    pose proof (bounded_stored s q sorted _ Hperm Hrows) as Hstored.
    assert (∀ c, (c = c1 ∨ c = c2) →
                 ∀ res, res ∈ shape (planTables
                                       (PhysicalPlanFactory_create g
                                          (LogicalPlanFactory_create q)))
                              <$> relationOf s
                                    (PhysicalPlanFactory_create g
                                       (LogicalPlanFactory_create q)) →
                        ∃ m z, res = FlatRow m ∧ m !! col_name c = Some (VInt z))
      as Hnumbers.
    { intros c Hcol res (row & Hrow & ->)%Hstored.
      destruct (Hnum row Hrow) as (z1 & z2 & Hz1 & Hz2).
      destruct Hcol as [->| ->]; eauto. }
    split; [by exists sorted|]. split; [|split].
    + intros Hw Hs Hl. rewrite Hrows, bounded_whole, Hperm, length_fmap by done.
      rewrite filter_all by (intros row; unfold kept; by rewrite Hw).
      apply getValues_length.
    + apply assertOrder_numbers; [apply Hnumbers; by left|].
      eapply ordered_impl; [|exact Hord]. by intros a b _ _ [? _].
    + intros k partial ->%bucket_lookup. apply assertOrder_numbers.
      * intros res [_ Hres]%list_elem_of_filter. apply Hnumbers; [by right|done].
      * eapply ordered_impl; [|by apply ordered_filter].
        intros a b [Ha' _]%list_elem_of_filter [Hb' _]%list_elem_of_filter [_ Hab].
        apply Hab. congruence.
Qed.

Lemma order_by_desc_then_asc_witness :
  ∃ rows,
    outcome (select_exec (DefaultQueryEngine_new Sample.bare) Sample.jobsBySalary)
            Sample.db rows ∧
    ordered (λ a b,
               valueLe (rowValue b (Sample.j "maxSalary"))
                       (rowValue a (Sample.j "maxSalary")) ∧
               (rowValue a (Sample.j "maxSalary") = rowValue b (Sample.j "maxSalary") →
                valueLe (rowValue a (Sample.j "minSalary"))
                        (rowValue b (Sample.j "minSalary")))) rows ∧
    (columns Sample.jobsBySalary = [] → aggregators Sample.jobsBySalary = [] →
     ∃ unsorted sorted,
       outcome (select_exec (DefaultQueryEngine_new Sample.bare)
                  (unordered Sample.jobsBySalary)) Sample.db unsorted ∧
       sorted ≡ₚ unsorted ∧
       ordered (λ a b,
                  valueLe (rowValue b (Sample.j "maxSalary"))
                          (rowValue a (Sample.j "maxSalary")) ∧
                  (rowValue a (Sample.j "maxSalary")
                   = rowValue b (Sample.j "maxSalary") →
                   valueLe (rowValue a (Sample.j "minSalary"))
                           (rowValue b (Sample.j "minSalary")))) sorted ∧
       (∀ v1 v2,
          filter (λ res, rowValue res (Sample.j "maxSalary") = v1 ∧
                         rowValue res (Sample.j "minSalary") = v2) sorted
          = filter (λ res, rowValue res (Sample.j "maxSalary") = v1 ∧
                           rowValue res (Sample.j "minSalary") = v2) unsorted) ∧
       rows = bounded Sample.jobsBySalary sorted) ∧
    (columns Sample.jobsBySalary = [] → aggregators Sample.jobsBySalary = [] →
     from_more Sample.jobsBySalary = [] → joins Sample.jobsBySalary = [] →
     (∀ row, MemoryTable.stored (Sample.db !!! from Sample.jobsBySalary) row →
        ∃ z1 z2,
          Row.payload row !! col_name (Sample.j "maxSalary") = Some (VInt z1) ∧
          Row.payload row !! col_name (Sample.j "minSalary") = Some (VInt z2)) →
     (∃ sorted,
        sorted ≡ₚ (λ row, FlatRow (Row.payload row))
                  <$> filter (kept Sample.jobsBySalary)
                             (tableRows Sample.db (from Sample.jobsBySalary)) ∧
        rows = bounded Sample.jobsBySalary sorted) ∧
     (where_ Sample.jobsBySalary = None → skip Sample.jobsBySalary = None →
      limit Sample.jobsBySalary = None →
      length rows
      = structs_Map.getCount
          (MemoryTable.data_ (Sample.db !!! from Sample.jobsBySalary))) ∧
     assertOrder rows (Sample.j "maxSalary") DESC = Some true ∧
     ∀ k partialResults,
       bucket rows (λ result, rowValue result (Sample.j "maxSalary")) !! k
       = Some partialResults →
       assertOrder partialResults (Sample.j "minSalary") ASC = Some true).
Proof.
  apply (order_by_desc_then_asc Sample.bare Sample.db Sample.jobsBySalary
           (Sample.j "maxSalary") (Sample.j "minSalary")).
  - reflexivity.
  - vm_compute. left.
  - vm_compute. left.
Defined.

(** Projection and aggregation over the rows of one table. *)
Lemma restrict_wrap cols (table : string) (m : gmap string Value) :
  restrict cols {[table := m]}
  = {[table := filter (λ kv, mkColumn table kv.1 ∈ cols) m]}.
Proof.
  apply map_eq. intros k. unfold restrict. rewrite map_lookup_imap.
  destruct (decide (k = table)) as [->|Hne].
  - by rewrite !lookup_singleton_eq.
  - by rewrite !lookup_singleton_ne.
Qed.

Lemma getVal_restrict cols e c : c ∈ cols → getVal (restrict cols e) c = getVal e c.
Proof.
  intros Hc. unfold getVal, restrict. rewrite map_lookup_imap.
  destruct (e !! col_table c) as [m|]; simpl; [|done].
  rewrite map_lookup_filter. destruct (m !! col_name c); simpl; [|done].
  rewrite option_guard_True; [done|]. simpl. by destruct c.
Qed.

Lemma evalAggregator_restrict cols a L :
  agg_col a ∈ cols → evalAggregator a (restrict cols <$> L) = evalAggregator a L.
Proof.
  intros Hc. unfold evalAggregator, aggValues.
  rewrite length_fmap, <- list_fmap_compose.
  rewrite (list_fmap_ext (_ ∘ restrict cols) (λ e, getVal e (agg_col a)) L); [done|].
  intros i e _. simpl. by apply getVal_restrict.
Qed.

Lemma withScalars_ext aggs L L' m :
  (∀ a, a ∈ aggs → evalAggregator a L' = evalAggregator a L) →
  withScalars aggs L' m = withScalars aggs L m.
Proof.
  induction aggs as [|a aggs IH]; intros Hyp; [done|]. simpl.
  rewrite IH by (intros; apply Hyp; by right). by rewrite Hyp by left.
Qed.

Lemma annotateAll_wrap aggs L (table : string) (m : gmap string Value) :
  (∀ a, a ∈ aggs → col_table (agg_col a) = table) →
  annotateAll aggs L {[table := m]} = {[table := withScalars aggs L m]}.
Proof.
  induction aggs as [|a aggs IH]; intros Hyp; [done|]. simpl.
  rewrite IH by (intros; apply Hyp; by right).
  unfold annotate. rewrite (Hyp a) by left.
  by rewrite lookup_total_singleton_eq, insert_singleton_eq.
Qed.

Lemma keepColumns_table cols (table : string) (m : gmap string Value) :
  (∀ c, c ∈ cols → col_table c = table) →
  filter (λ kv, mkColumn table kv.1 ∈ cols) m = keepColumns cols m.
Proof.
  intros Hyp. unfold keepColumns. apply map_filter_ext. intros k v _. simpl.
  rewrite list_elem_of_fmap. split.
  - intros Hin. by exists (mkColumn table k).
  - intros ([tb k'] & -> & Hin). simpl. by rewrite <- (Hyp _ Hin).
Qed.

Lemma project_narrowed (table : string) cols aggs needed (rows : list Row.t) :
  cols ≠ [] → aggs ≠ [] → needed ≠ [] →
  (∀ c, c ∈ cols → col_table c = table ∧ c ∈ needed) →
  (∀ a, a ∈ aggs → col_table (agg_col a) = table ∧ agg_col a ∈ needed) →
  shape [table] <$> project cols aggs (project needed [] (wrap table <$> rows))
  = (λ row, FlatRow (withScalars aggs (wrap table <$> rows)
                       (keepColumns cols (Row.payload row)))) <$> rows.
Proof.
  intros Hc Ha Hn Hcols Haggs.
  destruct cols as [|c0 cols]; [done|]. destruct aggs as [|a0 aggs]; [done|].
  destruct needed as [|n0 needed]; [done|].
  cbn [project]. rewrite <- !list_fmap_compose.
  apply list_fmap_ext. intros i row _. cbn [compose]. unfold wrap at 2.
  rewrite !restrict_wrap.
  rewrite annotateAll_wrap by (intros; by apply Haggs).
  cbn [shape]. rewrite lookup_total_singleton_eq. f_equal.
  rewrite map_filter_filter_l by (intros k v _ Hin; by apply Hcols).
  rewrite keepColumns_table by (intros; by apply Hcols).
  apply withScalars_ext. intros a Hin.
  rewrite (list_fmap_compose (wrap table) (restrict (n0 :: needed)) rows).
  apply evalAggregator_restrict. by apply Haggs.
Qed.

Lemma withScalars_column aggs L (m : gmap string Value) (k : string) :
  k ∉ aggName <$> aggs → withScalars aggs L m !! k = m !! k.
Proof.
  induction aggs as [|a aggs IH]; intros Hk; [done|]. simpl.
  apply not_elem_of_cons in Hk as [Hne Hk].
  rewrite lookup_insert_ne by done. by apply IH.
Qed.

Lemma withScalars_scalar aggs L (m : gmap string Value) a :
  NoDup (aggName <$> aggs) → a ∈ aggs →
  withScalars aggs L m !! aggName a = Some (evalAggregator a L).
Proof.
  induction aggs as [|a' aggs IH]; intros Hnd Hin; [by apply elem_of_nil in Hin|].
  simpl. apply NoDup_cons in Hnd as [Hfresh Hnd].
  apply elem_of_cons in Hin as [->|Hin]; [by rewrite lookup_insert_eq|].
  rewrite lookup_insert_ne; [by apply IH|].
  intros Heq. apply Hfresh. rewrite Heq. by apply list_elem_of_fmap_2.
Qed.

Lemma keepColumns_column cols (m : gmap string Value) c :
  c ∈ cols → keepColumns cols m !! col_name c = m !! col_name c.
Proof.
  intros Hin. unfold keepColumns. rewrite map_lookup_filter.
  destruct (m !! col_name c); simpl; [|done].
  rewrite option_guard_True; [done|]. simpl. by apply list_elem_of_fmap_2.
Qed.

(** C8. A select of columns and aggregators over one table answers
    with one row per row of the table; each carries its own values of
    the columns, and the scalars of the aggregators over the whole
    table. *)
Theorem columns_with_aggregators g s (table : string) cols aggs specs :
  cols ≠ [] → aggs ≠ [] →
  (∀ c, c ∈ cols → col_table c = table) →
  (∀ a, a ∈ aggs → col_table (agg_col a) = table) →
  ∃ rows,
    outcome (select_exec (DefaultQueryEngine_new g)
               (mkSelect table [] [] None cols aggs specs None None)) s rows ∧
    length rows = length (tableRows s table) ∧
    rows ≡ₚ (λ row, FlatRow (withScalars aggs (wrap table <$> tableRows s table)
                               (keepColumns cols (Row.payload row))))
            <$> tableRows s table ∧
    ∀ res, res ∈ rows →
      ∃ row, row ∈ tableRows s table ∧
        (∀ c, c ∈ cols → col_name c ∉ aggName <$> aggs →
              rowValue res c = getVal (wrap table row) c) ∧
        (∀ a, a ∈ aggs → NoDup (aggName <$> aggs) →
              rowValue res (mkColumn table (aggName a))
              = evalAggregator a (wrap table <$> tableRows s table)).
Proof.
  intros Hc Ha Hcols Haggs.
  eexists. split; [apply select_exec_outcome|].
  match goal with |- _ ∧ ?P ∧ _ => assert P as Hperm end; last first.
  { split; [by rewrite Hperm, length_fmap|]. split; [done|].
    intros res Hres. rewrite Hperm in Hres.
    apply list_elem_of_fmap in Hres as (row & -> & Hrow).
    exists row. split; [done|]. split.
    - intros c Hin Hfresh. cbn [rowValue].
      rewrite withScalars_column, keepColumns_column by done.
      unfold getVal, wrap. rewrite (Hcols c Hin).
      by rewrite lookup_singleton_eq.
    - intros a Hin Hnd. cbn [rowValue col_name].
      by rewrite withScalars_scalar. }
  rewrite plan_tables. unfold scope. cbn [from from_more joins fmap list_fmap app].
  unfold LogicalPlanFactory_create, initialTree.
  cbn [where_ columns aggregators orderBy skip limit accessTree from from_more
       joins foldl].
  assert (∀ extra,
    relationOf s (PhysicalPlanFactory_create g
      (pushProjections extra (LProject cols aggs (LTableAccess table))))
    = project cols aggs
        (project (filter (λ c, col_table c = table)
                         (cols ++ (agg_col <$> aggs) ++ extra ++ []))
                 [] (wrap table <$> tableRows s table))
    ∧ filter (λ c, col_table c = table)
             (cols ++ (agg_col <$> aggs) ++ extra ++ []) ≠ []) as Hplan.
  { intros extra. destruct cols as [|c0 cols]; [done|].
    destruct aggs as [|a0 aggs]; [done|]. cbn [pushProjections treeColumns narrow].
    destruct (filter _ _) as [|n0 needed] eqn:Hf.
    - exfalso. eapply (filter_nil_not_elem_of _ _ c0 Hf); [|by left].
      apply Hcols. by left.
    - done. }
  assert (∀ extra,
    shape [table] <$> relationOf s (PhysicalPlanFactory_create g
      (pushProjections extra (LProject cols aggs (LTableAccess table))))
    = (λ row, FlatRow (withScalars aggs (wrap table <$> tableRows s table)
                         (keepColumns cols (Row.payload row))))
      <$> tableRows s table) as Hshape.
  { intros extra. destruct (Hplan extra) as [-> Hne].
    apply project_narrowed; try done.
    - intros c Hin. split; [by apply Hcols|].
      apply list_elem_of_filter. split; [by apply Hcols|].
      apply elem_of_app. by left.
    - intros a Hin. split; [by apply Haggs|].
      apply list_elem_of_filter. split; [by apply Haggs|].
      apply elem_of_app. right. apply elem_of_app. left.
      apply list_elem_of_fmap. by exists a. }
  destruct specs as [|spec specs].
  - cbn [pushDownSelects inferJoins]. by rewrite Hshape.
  - cbn [pushDownSelects inferJoins pushProjections PhysicalPlanFactory_create
         relationOf].
    rewrite <- (Hshape ((spec :: specs).*1 ++ [])).
    apply fmap_Permutation, stableSort_perm.
Qed.

Lemma columns_with_aggregators_witness :
  ∃ rows,
    outcome (select_exec (DefaultQueryEngine_new Sample.bare)
               (mkSelect "Job" [] [] None
                  [Sample.j "title"; Sample.j "maxSalary"] [Sample.minMaxSalary]
                  [] None None)) Sample.db rows ∧
    length rows = length (tableRows Sample.db "Job") ∧
    rows ≡ₚ (λ row, FlatRow (withScalars [Sample.minMaxSalary]
                               (wrap "Job" <$> tableRows Sample.db "Job")
                               (keepColumns [Sample.j "title"; Sample.j "maxSalary"]
                                            (Row.payload row))))
            <$> tableRows Sample.db "Job" ∧
    ∀ res, res ∈ rows →
      ∃ row, row ∈ tableRows Sample.db "Job" ∧
        (∀ c, c ∈ [Sample.j "title"; Sample.j "maxSalary"] →
              col_name c ∉ aggName <$> [Sample.minMaxSalary] →
              rowValue res c = getVal (wrap "Job" row) c) ∧
        (∀ a, a ∈ [Sample.minMaxSalary] →
              NoDup (aggName <$> [Sample.minMaxSalary]) →
              rowValue res (mkColumn "Job" (aggName a))
              = evalAggregator a (wrap "Job" <$> tableRows Sample.db "Job")).
Proof.
  apply (columns_with_aggregators Sample.bare Sample.db "Job"
           [Sample.j "title"; Sample.j "maxSalary"] [Sample.minMaxSalary] []).
  - discriminate.
  - discriminate.
  - intros c Hin. apply elem_of_cons in Hin as [->|Hin]; [reflexivity|].
    apply list_elem_of_singleton in Hin as ->. reflexivity.
  - intros a Hin. apply list_elem_of_singleton in Hin as ->. reflexivity.
Defined.

End select_claims.

(** * The scenarios of the end-to-end tests, on the sample tables *)

(** [testSelect_Predicate]: one row, the one of the id asked for. *)
Example select_job3 :
  select_exec (DefaultQueryEngine_new Sample.bare)
    (mkSelect "Job" [] []
       (Some (ValuePredicate (Sample.j "id") EQ (VText "jobId3")))
       [] [] [] None None) Sample.db
  = (resolve [FlatRow (Row.payload Sample.pilot)], Sample.db).
Proof. vm_compute. reflexivity. Qed.

(** [testSelect_ImplicitJoin]: the value predicate goes below the
    product, and the equality of the two columns makes it a join. *)
Example implicit_join_plan :
  LogicalPlanFactory_create Sample.employeesOfJob3
  = LProject [] []
      (LJoin (JoinPredicate (Sample.e "jobId") EQ (Sample.j "id"))
         (LSelect (ValuePredicate (Sample.e "jobId") EQ (VText "jobId3"))
                  (LTableAccess "Employee"))
         (LTableAccess "Job")).
Proof. reflexivity. Qed.

Example implicit_join_hashed :
  PhysicalPlanFactory_create Sample.sized
    (LogicalPlanFactory_create Sample.employeesOfJob3')
  = PProject [] []
      (PJoin (HashJoin Left (Sample.j "id") (Sample.e "jobId"))
         (JoinPredicate (Sample.e "jobId") EQ (Sample.j "id"))
         (PTableAccess "Job")
         (PSelect (ValuePredicate (Sample.e "jobId") EQ (VText "jobId3"))
                  (PTableAccess "Employee"))).
Proof. reflexivity. Qed.

Example implicit_join_rows :
  select_exec (DefaultQueryEngine_new Sample.sized) Sample.employeesOfJob3 Sample.db
  = (resolve
       [CompositeRow (merge (wrap "Employee" Sample.eve) (wrap "Job" Sample.pilot));
        CompositeRow (merge (wrap "Employee" Sample.ann) (wrap "Job" Sample.pilot))],
     Sample.db)
  ∧ select_exec (DefaultQueryEngine_new Sample.sized) Sample.employeesOfJob3' Sample.db
    = select_exec (DefaultQueryEngine_new Sample.sized) Sample.employeesOfJob3 Sample.db.
Proof. split; vm_compute; reflexivity. Qed.

(** [testSelect_OrderBy_Multiple] *)
Example jobs_by_salary :
  select_exec (DefaultQueryEngine_new Sample.bare) Sample.jobsBySalary Sample.db
  = (resolve [FlatRow (Row.payload Sample.pilot);
              FlatRow (Row.payload Sample.clerk);
              FlatRow (Row.payload Sample.driver)], Sample.db).
Proof. vm_compute. reflexivity. Qed.

(** The assertions of [testSelect_OrderBy_Multiple] pass on these
    rows. *)
Example jobs_by_salary_asserted :
  let results := [FlatRow (Row.payload Sample.pilot);
                  FlatRow (Row.payload Sample.clerk);
                  FlatRow (Row.payload Sample.driver)] in
  length results = 3%nat ∧
  assertOrder results (Sample.j "maxSalary") DESC = Some true ∧
  map_Forall (λ _ partialResults,
                assertOrder partialResults (Sample.j "minSalary") ASC = Some true)
             (bucket results (λ result, rowValue result (Sample.j "maxSalary"))).
Proof.
  split; [reflexivity|]. split; [vm_compute; reflexivity|].
  apply map_Forall_to_list, (bool_decide_unpack _). vm_compute. exact I.
Qed.

(** Where [assertOrder] throws: rows that lack the column (two
    [undefined] do not compare), the rows of a join (the column is
    looked for among the table names), [null] before a negative number,
    and the wrong order. *)
Example assertOrder_throws :
  assertOrder [FlatRow ∅; FlatRow ∅] (Sample.j "minSalary") ASC = Some false ∧
  assertOrder [CompositeRow (merge (wrap "Employee" Sample.ann) (wrap "Job" Sample.pilot));
               CompositeRow (merge (wrap "Employee" Sample.eve) (wrap "Job" Sample.pilot))]
              (Sample.j "minSalary") ASC = Some false ∧
  assertOrder [FlatRow {["minSalary" := VAbsent]}; FlatRow {["minSalary" := VInt (-5)]}]
              (Sample.j "minSalary") ASC = Some false ∧
  assertOrder [FlatRow (Row.payload Sample.clerk); FlatRow (Row.payload Sample.pilot)]
              (Sample.j "minSalary") DESC = Some false.
Proof. repeat split; vm_compute; reflexivity. Qed.

(** [testSelect_Min_BothColumnsAndAggregators]: three keys a row, the
    least [maxSalary] of the table on every row. *)
Example titles_with_min :
  ∃ rows,
    select_exec (DefaultQueryEngine_new Sample.bare) Sample.titlesWithMin Sample.db
    = (resolve rows, Sample.db) ∧
    length rows = 3%nat ∧
    Forall (λ row, ∃ m, row = FlatRow m ∧ size m = 3%nat ∧
                        m !! "MIN(maxSalary)" = Some (VInt 300)) rows.
Proof.
  eexists. split; [vm_compute; reflexivity|]. split; [reflexivity|].
  repeat constructor; eexists; (split; [reflexivity|]); split; reflexivity.
Qed.

(** * More on the memory table *)

Section memory_table_more.
Implicit Types (this : MemoryTable.t) (ids : list Z) (rows : list Row.t).
Implicit Types (data : gmap Z Row.t) (r : Row.t) (k : Z).

Lemma put_lookup_Some this rows k r :
  last (filter (λ r, Row.id r = k) rows) = Some r →
  MemoryTable.data_ (MemoryTable.put this rows).1 !! k = Some r.
Proof. intros Hl. simpl. by rewrite put_loop_lookup, Hl. Qed.

Lemma put_lookup_None this rows k :
  k ∉ Row.id <$> rows →
  MemoryTable.data_ (MemoryTable.put this rows).1 !! k
  = MemoryTable.data_ this !! k.
Proof.
  intros Hk. simpl. rewrite put_loop_lookup.
  destruct (last _) as [r|] eqn:Hl; [|done].
  apply last_Some_elem_of, list_elem_of_filter in Hl as [<- Hin].
  destruct Hk. by apply list_elem_of_fmap_2.
Qed.

(** With distinct identities, the row found under an identity is the
    one row of the list that has it. *)
Lemma NoDup_ids_inj rows r r' :
  NoDup (Row.id <$> rows) → r ∈ rows → r' ∈ rows → Row.id r = Row.id r' →
  r = r'.
Proof.
  induction rows as [|x rows IH]; intros Hnd Hr Hr' Hid.
  { by apply elem_of_nil in Hr. }
  rewrite fmap_cons in Hnd. apply NoDup_cons in Hnd as [Hx Hnd].
  apply elem_of_cons in Hr as [->|Hr]; apply elem_of_cons in Hr' as [->|Hr'].
  - done.
  - destruct Hx. rewrite Hid. by apply list_elem_of_fmap_2.
  - destruct Hx. rewrite <- Hid. by apply list_elem_of_fmap_2.
  - by apply IH.
Qed.

Lemma put_lookup_NoDup this rows r :
  NoDup (Row.id <$> rows) → r ∈ rows →
  MemoryTable.data_ (MemoryTable.put this rows).1 !! Row.id r = Some r.
Proof.
  intros Hnd Hr. simpl. rewrite put_loop_lookup.
  destruct (last _) as [r'|] eqn:Hl.
  - apply last_Some_elem_of, list_elem_of_filter in Hl as [Hid Hin].
    f_equal. by apply (NoDup_ids_inj rows).
  - apply last_None in Hl.
    assert (r ∈ filter (λ r0, Row.id r0 = Row.id r) rows) as Hf
      by (by apply list_elem_of_filter).
    rewrite Hl in Hf. by apply not_elem_of_nil in Hf.
Qed.

(** X1. Whatever is put or removed, every row stays under its own
    identity, so no two stored rows share an identity. *)
Theorem operations_keep_identities this rows ids :
  MemoryTable.keyed this →
  MemoryTable.keyed (MemoryTable.put this rows).1 ∧
  MemoryTable.keyed (MemoryTable.remove this ids).1 ∧
  ∀ r1 r2, MemoryTable.stored (MemoryTable.put this rows).1 r1 →
           MemoryTable.stored (MemoryTable.put this rows).1 r2 →
           Row.id r1 = Row.id r2 → r1 = r2.
Proof.
  intros Hk. split; [by apply keyed_put|]. split; [by apply keyed_remove|].
  intros r1 r2 [k1 H1] [k2 H2] Hid.
  pose proof (keyed_put this rows Hk) as Hk'.
  pose proof (Hk' _ _ H1) as E1. pose proof (Hk' _ _ H2) as E2.
  assert (k1 = k2) as -> by congruence. congruence.
Qed.

Lemma operations_keep_identities_witness :
  MemoryTable.keyed (MemoryTable.put Sample.jobs [Sample.clerk']).1 ∧
  MemoryTable.keyed (MemoryTable.remove Sample.jobs [2]).1 ∧
  ∀ r1 r2, MemoryTable.stored (MemoryTable.put Sample.jobs [Sample.clerk']).1 r1 →
           MemoryTable.stored (MemoryTable.put Sample.jobs [Sample.clerk']).1 r2 →
           Row.id r1 = Row.id r2 → r1 = r2.
Proof.
  apply (operations_keep_identities Sample.jobs [Sample.clerk'] [2]).
  apply keyed_put, keyed_new.
Defined.

(** X2. On a non-empty list, the identities of the rows [get] answers
    with are the ids of the list that are present, in the order and as
    often as the list has them. *)
Theorem get_ids_present this ids :
  MemoryTable.keyed this → ids ≠ [] →
  ∃ rows, MemoryTable.get this ids = resolve rows ∧
    Row.id <$> rows = filter (λ i, is_Some (MemoryTable.data_ this !! i)) ids ∧
    (length rows ≤ length ids)%nat.
Proof.
  intros Hk Hne. eexists. split; [by apply get_nonempty|].
  clear Hne. induction ids as [|i ids [IH1 IH2]]; [done|].
  cbn [omap list_omap]. rewrite filter_cons.
  destruct (MemoryTable.data_ this !! i) as [r|] eqn:Hi.
  - rewrite decide_True by done. cbn. rewrite (Hk _ _ Hi), IH1. split; [done|lia].
  - rewrite decide_False by (by intros []). cbn in *. split; [done|lia].
Qed.

Lemma get_ids_present_witness :
  ∃ rows, MemoryTable.get Sample.jobs [3; 7; 3; 1] = resolve rows ∧
    Row.id <$> rows
    = filter (λ i, is_Some (MemoryTable.data_ Sample.jobs !! i)) [3; 7; 3; 1] ∧
    (length rows ≤ length [3; 7; 3; 1])%nat.
Proof.
  apply (get_ids_present Sample.jobs [3; 7; 3; 1]).
  - apply keyed_put, keyed_new.
  - discriminate.
Defined.

(** X3. After [put(rows)] an identity holds the last row of [rows] that
    has it, and what it held before when no row of [rows] has it. *)
Theorem put_last_wins this rows k :
  MemoryTable.data_ (MemoryTable.put this rows).1 !! k
  = match last (filter (λ r, Row.id r = k) rows) with
    | Some r => Some r
    | None => MemoryTable.data_ this !! k
    end.
Proof. simpl. apply put_loop_lookup. Qed.

(** X4. Putting the same rows again changes nothing. *)
Theorem put_twice this rows :
  (MemoryTable.put (MemoryTable.put this rows).1 rows).1
  = (MemoryTable.put this rows).1.
Proof.
  unfold MemoryTable.put. cbn [fst MemoryTable.data_]. f_equal.
  apply map_eq. intros k. rewrite !put_loop_lookup.
  by destruct (last _).
Qed.

(** X5. Rows of distinct identities may be put in any order. *)
Theorem put_any_order this rows rows' :
  NoDup (Row.id <$> rows) → rows ≡ₚ rows' →
  (MemoryTable.put this rows).1 = (MemoryTable.put this rows').1.
Proof.
  intros Hnd Hp.
  assert (NoDup (Row.id <$> rows')) as Hnd' by (by rewrite <- Hp).
  unfold MemoryTable.put. cbn [fst]. f_equal.
  apply map_eq. intros k.
  destruct (decide (k ∈ Row.id <$> rows)) as [Hin|Hout].
  - apply list_elem_of_fmap in Hin as (r & -> & Hr).
    pose proof (put_lookup_NoDup this rows r Hnd Hr) as H1.
    pose proof (put_lookup_NoDup this rows' r Hnd') as H2.
    simpl in H1, H2. rewrite H1, H2; [done|by rewrite <- Hp].
  - pose proof (put_lookup_None this rows k Hout) as H1.
    pose proof (put_lookup_None this rows' k) as H2.
    simpl in H1, H2. rewrite H1, H2; [done|by rewrite <- Hp].
Qed.

Lemma put_any_order_witness :
  (MemoryTable.put Sample.pilots [Sample.clerk; Sample.driver]).1
  = (MemoryTable.put Sample.pilots [Sample.driver; Sample.clerk]).1.
Proof.
  apply (put_any_order Sample.pilots [Sample.clerk; Sample.driver]
           [Sample.driver; Sample.clerk]).
  - apply (bool_decide_unpack _). vm_compute. exact I.
  - apply Permutation_swap.
Defined.

Lemma put_dom this rows :
  dom (MemoryTable.data_ (MemoryTable.put this rows).1)
  =@{gset Z} dom (MemoryTable.data_ this) ∪ list_to_set (Row.id <$> rows).
Proof.
  apply set_eq. intros k.
  rewrite elem_of_union, !elem_of_dom, elem_of_list_to_set.
  destruct (decide (k ∈ Row.id <$> rows)) as [Hin|Hout].
  - apply list_elem_of_fmap in Hin as (r & -> & Hr).
    simpl. rewrite put_loop_lookup.
    destruct (last _) eqn:Hl.
    + split; [|done]. intros _. right. by apply list_elem_of_fmap_2.
    + apply last_None in Hl.
      assert (r ∈ filter (λ r0, Row.id r0 = Row.id r) rows) as Hf
        by (by apply list_elem_of_filter).
      rewrite Hl in Hf. by apply not_elem_of_nil in Hf.
  - rewrite put_lookup_None by done. split; [by left|]. by intros [?|?].
Qed.

(** X6. [put] loses no identity: afterwards the table holds the
    identities it held and those of the rows put, and no other. *)
Theorem put_identities this rows k :
  is_Some (MemoryTable.data_ (MemoryTable.put this rows).1 !! k)
  ↔ is_Some (MemoryTable.data_ this !! k) ∨ k ∈ Row.id <$> rows.
Proof.
  rewrite <- !elem_of_dom, put_dom, elem_of_union, elem_of_list_to_set. done.
Qed.

Lemma put_count_disjoint this rows :
  NoDup (Row.id <$> rows) →
  (∀ r, r ∈ rows → MemoryTable.data_ this !! Row.id r = None) →
  structs_Map.getCount (MemoryTable.data_ (MemoryTable.put this rows).1)
  = (structs_Map.getCount (MemoryTable.data_ this) + length rows)%nat.
Proof.
  intros Hnd Hfresh. unfold structs_Map.getCount.
  rewrite <- (size_dom (D := gset Z) (MemoryTable.data_ (MemoryTable.put this rows).1)).
  rewrite <- (size_dom (D := gset Z) (MemoryTable.data_ this)).
  rewrite put_dom, size_union, size_list_to_set, length_fmap; [done..|].
  intros k Hk Hin. apply elem_of_list_to_set, list_elem_of_fmap in Hin as (r & -> & Hr).
  apply elem_of_dom in Hk as [x Hx]. by rewrite Hfresh in Hx.
Qed.

(** X7. Putting rows of distinct identities, none of them in the table,
    makes the table grow by as many rows. *)
Theorem put_fresh_count this rows :
  NoDup (Row.id <$> rows) →
  (∀ r, r ∈ rows → MemoryTable.data_ this !! Row.id r = None) →
  structs_Map.getCount (MemoryTable.data_ (MemoryTable.put this rows).1)
  = (structs_Map.getCount (MemoryTable.data_ this) + length rows)%nat.
Proof. apply put_count_disjoint. Qed.

Lemma put_fresh_count_witness :
  structs_Map.getCount
    (MemoryTable.data_ (MemoryTable.put Sample.pilots [Sample.clerk; Sample.driver]).1)
  = (structs_Map.getCount (MemoryTable.data_ Sample.pilots)
     + length [Sample.clerk; Sample.driver])%nat.
Proof.
  apply (put_fresh_count Sample.pilots [Sample.clerk; Sample.driver]).
  - apply (bool_decide_unpack _). vm_compute. exact I.
  - intros r Hr. apply elem_of_cons in Hr as [->|Hr];
      [|apply list_elem_of_singleton in Hr as ->]; vm_compute; reflexivity.
Defined.

Lemma getValues_NoDup this :
  MemoryTable.keyed this → NoDup (structs_Map.getValues (MemoryTable.data_ this)).
Proof.
  intros Hk. unfold structs_Map.getValues.
  apply NoDup_fmap_2_strong; [|apply NoDup_map_to_list].
  intros [k1 r1] [k2 r2] H1%elem_of_map_to_list H2%elem_of_map_to_list Heq.
  simpl in Heq. subst r2. f_equal. by rewrite <- (Hk _ _ H1), <- (Hk _ _ H2).
Qed.

(** X8. After rows of distinct identities are put, [get([])] answers
    with those rows and with the rows the table held under other
    identities, each once. *)
Theorem put_then_get_all this rows :
  MemoryTable.keyed this → NoDup (Row.id <$> rows) →
  ∃ all, MemoryTable.get (MemoryTable.put this rows).1 [] = resolve all ∧
    all ≡ₚ rows ++ filter (λ r, Row.id r ∉ Row.id <$> rows)
                          (structs_Map.getValues (MemoryTable.data_ this)).
Proof.
  intros Hk Hnd. eexists. split; [apply get_empty|].
  apply NoDup_Permutation.
  - by apply getValues_NoDup, keyed_put.
  - apply NoDup_app. split; [by eapply NoDup_fmap_1|]. split.
    + intros r Hr [Hout _]%list_elem_of_filter. destruct Hout.
      by apply list_elem_of_fmap_2.
    + by apply NoDup_filter, getValues_NoDup.
  - intros r. rewrite elem_of_app, list_elem_of_filter, !getValues_elem. split.
    + intros [k Hr].
      destruct (decide (k ∈ Row.id <$> rows)) as [Hin|Hout].
      * left. apply list_elem_of_fmap in Hin as (r' & -> & Hr').
        rewrite put_lookup_NoDup in Hr by done. by injection Hr as <-.
      * right. rewrite put_lookup_None in Hr by done.
        split; [|by exists k]. by rewrite (Hk _ _ Hr).
    + intros [Hr|[Hout [k Hr]]].
      * exists (Row.id r). by apply put_lookup_NoDup.
      * exists k. rewrite put_lookup_None; [done|]. by rewrite <- (Hk _ _ Hr).
Qed.

Lemma put_then_get_all_witness :
  ∃ all,
    MemoryTable.get (MemoryTable.put Sample.jobs [Sample.clerk']).1 [] = resolve all ∧
    all ≡ₚ [Sample.clerk']
           ++ filter (λ r, Row.id r ∉ Row.id <$> [Sample.clerk'])
                     (structs_Map.getValues (MemoryTable.data_ Sample.jobs)).
Proof.
  apply (put_then_get_all Sample.jobs [Sample.clerk']).
  - apply keyed_put, keyed_new.
  - apply (bool_decide_unpack _). vm_compute. exact I.
Defined.

(** X9. [remove(ids)] brings no row in and leaves none of the listed
    ids: what the table holds afterwards it held before, under an
    identity that is not listed. *)
Theorem remove_only_removes this ids k r :
  MemoryTable.data_ (MemoryTable.remove this ids).1 !! k = Some r →
  MemoryTable.data_ this !! k = Some r ∧ k ∉ ids.
Proof.
  unfold MemoryTable.remove. case_decide; cbn [fst MemoryTable.data_].
  - unfold structs_Map.clear. by rewrite lookup_empty.
  - rewrite remove_loop_lookup. by case_decide.
Qed.

Lemma remove_only_removes_witness :
  MemoryTable.data_ Sample.jobs !! 3 = Some Sample.pilot ∧ 3 ∉ [1; 9].
Proof.
  apply (remove_only_removes Sample.jobs [1; 9] 3 Sample.pilot).
  vm_compute. reflexivity.
Defined.

(** X10. When the listed ids are distinct and all in the table, and
    there is one at least, [remove] deletes them and nothing else,
    whether it clears the map or deletes key by key. *)
Theorem remove_listed_exactly this ids k :
  ids ≠ [] → NoDup ids →
  (∀ i, i ∈ ids → is_Some (MemoryTable.data_ this !! i)) →
  MemoryTable.data_ (MemoryTable.remove this ids).1 !! k
  = if decide (k ∈ ids) then None else MemoryTable.data_ this !! k.
Proof.
  intros Hne Hnd Hin. unfold MemoryTable.remove.
  case_decide as Hall; cbn [fst MemoryTable.data_]; [|apply remove_loop_lookup].
  destruct Hall as [Hl|Hl]; [by destruct ids|].
  unfold structs_Map.clear, structs_Map.getCount in *. rewrite lookup_empty.
  case_decide as Hk; [done|]. symmetry. apply not_elem_of_dom.
  assert (list_to_set ids =@{gset Z} dom (MemoryTable.data_ this)) as <-.
  { apply set_subseteq_size_eq.
    - intros i Hi%elem_of_list_to_set. by apply elem_of_dom, Hin.
    - rewrite size_dom, size_list_to_set by done. lia. }
  by rewrite elem_of_list_to_set.
Qed.

Lemma remove_listed_exactly_witness :
  MemoryTable.data_ (MemoryTable.remove Sample.jobs [2; 3; 1]).1 !! 3
  = if decide (3 ∈ [2; 3; 1]) then None else MemoryTable.data_ Sample.jobs !! 3.
Proof.
  apply (remove_listed_exactly Sample.jobs [2; 3; 1] 3).
  - discriminate.
  - apply (bool_decide_unpack _). vm_compute. exact I.
  - intros i Hi. apply (bool_decide_unpack _).
    repeat (apply elem_of_cons in Hi as [->|Hi]; [vm_compute; exact I|]).
    by apply elem_of_nil in Hi.
Defined.

(** X11. Rows of distinct identities that were not in the table, one at
    least, are gone again after [remove] on their identities, and the
    table is as it was. *)
Theorem put_then_remove_restores this rows :
  rows ≠ [] → NoDup (Row.id <$> rows) →
  (∀ r, r ∈ rows → MemoryTable.data_ this !! Row.id r = None) →
  MemoryTable.data_
    (MemoryTable.remove (MemoryTable.put this rows).1 (Row.id <$> rows)).1
  = MemoryTable.data_ this.
Proof.
  intros Hne Hnd Hfresh.
  pose proof (put_count_disjoint this rows Hnd Hfresh) as Hcount.
  unfold MemoryTable.remove. case_decide as Hall; cbn [fst MemoryTable.data_].
  - destruct Hall as [Hl|Hl]; [by destruct rows|].
    rewrite Hcount, length_fmap in Hl. symmetry.
    unfold structs_Map.clear. apply map_size_empty_iff.
    unfold structs_Map.getCount in Hl. lia.
  - apply map_eq. intros k. rewrite remove_loop_lookup.
    case_decide as Hk.
    + apply list_elem_of_fmap in Hk as (r & -> & Hr). symmetry. by apply Hfresh.
    + pose proof (put_lookup_None this rows k Hk) as Hput. exact Hput.
Qed.

Lemma put_then_remove_restores_witness :
  MemoryTable.data_
    (MemoryTable.remove (MemoryTable.put Sample.pilots [Sample.clerk; Sample.driver]).1
                        (Row.id <$> [Sample.clerk; Sample.driver])).1
  = MemoryTable.data_ Sample.pilots.
Proof.
  apply (put_then_remove_restores Sample.pilots [Sample.clerk; Sample.driver]).
  - discriminate.
  - apply (bool_decide_unpack _). vm_compute. exact I.
  - intros r Hr. apply elem_of_cons in Hr as [->|Hr];
      [|apply list_elem_of_singleton in Hr as ->]; vm_compute; reflexivity.
Defined.

(** X12. [get] on two non-empty lists of ids, one after the other,
    answers with the rows of the first and then the rows of the
    second. *)
Theorem get_of_two_lists this ids ids' :
  ids ≠ [] → ids' ≠ [] →
  ∃ rows rows',
    MemoryTable.get this ids = resolve rows ∧
    MemoryTable.get this ids' = resolve rows' ∧
    MemoryTable.get this (ids ++ ids') = resolve (rows ++ rows').
Proof.
  intros Hne Hne'. do 2 eexists.
  split; [by apply get_nonempty|]. split; [by apply get_nonempty|].
  rewrite get_nonempty by (by destruct ids). by rewrite omap_app.
Qed.

Lemma get_of_two_lists_witness :
  ∃ rows rows',
    MemoryTable.get Sample.jobs [3; 7] = resolve rows ∧
    MemoryTable.get Sample.jobs [1] = resolve rows' ∧
    MemoryTable.get Sample.jobs ([3; 7] ++ [1]) = resolve (rows ++ rows').
Proof. apply (get_of_two_lists Sample.jobs [3; 7] [1]); discriminate. Defined.

Lemma remove_loop_count ids data :
  NoDup ids → (∀ i, i ∈ ids → is_Some (data !! i)) →
  structs_Map.getCount (foldl (λ data id, structs_Map.remove data id) data ids)
  = (structs_Map.getCount data - length ids)%nat.
Proof.
  intros Hnd Hin. unfold structs_Map.getCount.
  rewrite <- !(size_dom (D := gset Z)).
  assert (dom (foldl (λ data id, structs_Map.remove data id) data ids)
          =@{gset Z} dom data ∖ list_to_set ids) as ->.
  { apply set_eq. intros k.
    rewrite elem_of_difference, !elem_of_dom, elem_of_list_to_set,
      remove_loop_lookup.
    case_decide as Hk.
    - split; [by intros [? ?]|]. by intros [_ ?].
    - split; [done|]. by intros [? _]. }
  rewrite size_difference, size_list_to_set; [done..|].
  intros i Hi%elem_of_list_to_set. by apply elem_of_dom, Hin.
Qed.

(** X25. [remove] with the same ids a second time may remove more:
    when the first call leaves as many rows as ids were listed, the
    second call finds a list as long as the table and clears it. *)
Theorem remove_again_clears this ids :
  ids ≠ [] → NoDup ids →
  (∀ i, i ∈ ids → is_Some (MemoryTable.data_ this !! i)) →
  structs_Map.getCount (MemoryTable.data_ this) = (2 * length ids)%nat →
  structs_Map.getCount (MemoryTable.data_ (MemoryTable.remove this ids).1)
  = length ids ∧
  MemoryTable.data_ (MemoryTable.remove (MemoryTable.remove this ids).1 ids).1 = ∅.
Proof.
  intros Hne Hnd Hin Hcount.
  assert (length ids ≠ 0%nat) as Hlen by (by destruct ids).
  assert (structs_Map.getCount (MemoryTable.data_ (MemoryTable.remove this ids).1)
          = length ids) as Hleft.
  { unfold MemoryTable.remove. rewrite decide_False by lia.
    cbn [fst MemoryTable.data_]. rewrite remove_loop_count by done. lia. }
  split; [done|].
  unfold MemoryTable.remove at 1. rewrite decide_True by (by right).
  done.
Qed.

Lemma remove_again_clears_witness :
  structs_Map.getCount
    (MemoryTable.data_
       (MemoryTable.remove
          (MemoryTable.put MemoryTable.new [Sample.clerk; Sample.driver]).1 [1]).1)
  = length [1%Z] ∧
  MemoryTable.data_
    (MemoryTable.remove
       (MemoryTable.remove
          (MemoryTable.put MemoryTable.new [Sample.clerk; Sample.driver]).1 [1]).1
       [1]).1 = ∅.
Proof.
  apply (remove_again_clears
           (MemoryTable.put MemoryTable.new [Sample.clerk; Sample.driver]).1 [1]).
  - discriminate.
  - apply (bool_decide_unpack _). vm_compute. exact I.
  - intros i Hi. apply list_elem_of_singleton in Hi as ->.
    apply (bool_decide_unpack _). vm_compute. exact I.
  - vm_compute. reflexivity.
Defined.

End memory_table_more.

(** * More on [assertOrder] *)

Section assert_order_more.
Implicit Types (results : list ResultRow) (c : Column) (o : Order).

(** X13. [assertOrder] runs to its end exactly when every result but
    the first compares as the order asks ([value <= soFar] descending,
    [value >= soFar] ascending) with the result right before it; the
    first result is compared with nothing, so no result and a single
    result pass, whatever the result holds. *)
Theorem assertOrder_checks_neighbours results c o :
  (assertOrder results c o = Some true ↔
   ∀ i before result,
     results !! i = Some before → results !! S i = Some result →
     match o with
     | DESC => jsLe (jsProperty result (col_name c)) (jsProperty before (col_name c))
     | ASC => jsGe (jsProperty result (col_name c)) (jsProperty before (col_name c))
     end = Some true) ∧
  ((length results ≤ 1)%nat → assertOrder results c o = Some true).
Proof.
  split; [apply assertOrder_adjacent|].
  intros Hlen. apply assertOrder_adjacent. intros i a b Ha Hb.
  apply lookup_lt_Some in Hb. lia.
Qed.

(** X14. A list passes [assertOrder] ascending exactly when the list
    turned round passes it descending. *)
Theorem assertOrder_turned_round results c :
  assertOrder results c ASC = Some true
  ↔ assertOrder (reverse results) c DESC = Some true.
Proof.
  rewrite !assertOrder_adjacent.
  assert (∀ l, adjacent (inOrder c ASC) l → adjacent (inOrder c DESC) (reverse l))
    as Hup.
  { intros l Hl%adjacent_reverse. intros i a b Ha Hb.
    specialize (Hl i a b Ha Hb). unfold flip, inOrder in *.
    by rewrite <- jsGe_flip. }
  assert (∀ l, adjacent (inOrder c DESC) l → adjacent (inOrder c ASC) (reverse l))
    as Hdown.
  { intros l Hl%adjacent_reverse. intros i a b Ha Hb.
    specialize (Hl i a b Ha Hb). unfold flip, inOrder in *.
    by rewrite jsGe_flip. }
  split; [apply Hup|]. intros H%Hdown. by rewrite reverse_involutive in H.
Qed.

End assert_order_more.

(** * More on selects *)

Section select_more.
Implicit Types (e x y : RelationEntry) (L R : Relation) (p : Predicate).
Implicit Types (c : Column) (t l r : LogicalNode) (s : Store) (g : Global).
Implicit Types (q : SelectContext).

(** Skip and limit are the last steps of a plan. *)
Lemma plan_bounded g s q :
  relationOf s (PhysicalPlanFactory_create g (LogicalPlanFactory_create q))
  = bounded q (relationOf s (PhysicalPlanFactory_create g
                               (LogicalPlanFactory_create (unbounded q)))).
Proof.
  unfold LogicalPlanFactory_create, initialTree, unbounded, bounded.
  destruct q as [tb more js w cols aggs specs sk lim].
  cbn [from from_more joins where_ columns aggregators orderBy skip limit].
  destruct sk, lim, specs, cols, aggs;
    cbn [pushDownSelects inferJoins pushProjections PhysicalPlanFactory_create
         relationOf]; reflexivity.
Qed.

(** X15. Skip and limit come last: a select answers with the rows that
    the same select without skip and limit answers with, the first ones
    skipped and the rest cut at the limit. *)
Theorem skip_limit_come_last g s q :
  ∃ whole rows,
    outcome (select_exec (DefaultQueryEngine_new g) (unbounded q)) s whole ∧
    outcome (select_exec (DefaultQueryEngine_new g) q) s rows ∧
    rows = (let skipped := match skip q with Some n => drop n whole | None => whole end in
            match limit q with Some n => take n skipped | None => skipped end).
Proof.
  eexists _, _. split; [apply select_exec_outcome|].
  split; [apply select_exec_outcome|].
  rewrite !plan_tables, plan_bounded, bounded_fmap. done.
Qed.

Lemma select_star_rows g s (table : string) sk lim :
  let q := mkSelect table [] [] None [] [] [] sk lim in
  shape (planTables (PhysicalPlanFactory_create g (LogicalPlanFactory_create q)))
    <$> relationOf s (PhysicalPlanFactory_create g (LogicalPlanFactory_create q))
  = bounded q ((λ row, FlatRow (Row.payload row)) <$> tableRows s table).
Proof.
  intros q. rewrite plan_tables, plan_bounded, bounded_fmap. f_equal.
  cbn. rewrite <- list_fmap_compose.
  apply list_fmap_ext. intros i row _. apply shape_wrap.
Qed.

(** X16. A select of a whole table answers with as many rows as the
    table holds, the rows stored and no other. *)
Theorem select_all_whole_table g s (table : string) :
  ∃ rows,
    outcome (select_exec (DefaultQueryEngine_new g)
               (mkSelect table [] [] None [] [] [] None None)) s rows ∧
    length rows = structs_Map.getCount (MemoryTable.data_ (s !!! table)) ∧
    ∀ res, res ∈ rows ↔
         ∃ row, MemoryTable.stored (s !!! table) row ∧ res = FlatRow (Row.payload row).
Proof.
  eexists. split; [apply select_exec_outcome|].
  rewrite select_star_rows. unfold bounded, tableRows. cbn [skip limit].
  split; [by rewrite length_fmap, getValues_length|].
  intros res. rewrite list_elem_of_fmap. split.
  - intros (row & -> & Hrow). exists row. split; [by apply getValues_elem|done].
  - intros (row & Hrow & ->). exists row. split; [done|by apply getValues_elem].
Qed.

(** X17. A select of a whole table with a limit answers with as many
    rows as the limit, or with all the rows of a smaller table; with a
    skip it answers with as many rows fewer, or with none. *)
Theorem select_skip_limit_count g s (table : string) (n : nat) :
  let count := structs_Map.getCount (MemoryTable.data_ (s !!! table)) in
  (∃ rows,
     outcome (select_exec (DefaultQueryEngine_new g)
                (mkSelect table [] [] None [] [] [] None (Some n))) s rows ∧
     length rows = (n `min` count)%nat) ∧
  (∃ rows,
     outcome (select_exec (DefaultQueryEngine_new g)
                (mkSelect table [] [] None [] [] [] (Some n) None)) s rows ∧
     length rows = (count - n)%nat).
Proof.
  intros count. split.
  - eexists. split; [apply select_exec_outcome|].
    rewrite select_star_rows. unfold bounded, tableRows. cbn [skip limit].
    by rewrite length_take, length_fmap, getValues_length.
  - eexists. split; [apply select_exec_outcome|].
    rewrite select_star_rows. unfold bounded, tableRows. cbn [skip limit].
    by rewrite length_drop, length_fmap, getValues_length.
Qed.

(** The plan of a projection over one table: the table is read, narrowed
    to the columns in use, and projected. *)
Lemma projected_plan g s (table : string) cols aggs extra :
  (∃ c, c ∈ cols ++ (agg_col <$> aggs) ∧ col_table c = table) →
  ∃ needed,
    needed ≠ [] ∧
    (∀ c, c ∈ cols ++ (agg_col <$> aggs) → col_table c = table → c ∈ needed) ∧
    relationOf s (PhysicalPlanFactory_create g
      (pushProjections extra (LProject cols aggs (LTableAccess table))))
    = project cols aggs (project needed [] (wrap table <$> tableRows s table)).
Proof.
  intros (c0 & Hin & Htable).
  exists (filter (λ c, col_table c = table)
                 (cols ++ (agg_col <$> aggs) ++ extra ++ [])).
  assert (∀ c, c ∈ cols ++ (agg_col <$> aggs) → col_table c = table →
               c ∈ filter (λ c, col_table c = table)
                          (cols ++ (agg_col <$> aggs) ++ extra ++ [])) as Hneeded.
  { intros c Hc Ht. apply list_elem_of_filter. split; [done|].
    rewrite app_assoc. apply elem_of_app. by left. }
  split; [|split; [done|]].
  - intros Hnil. specialize (Hneeded c0 Hin Htable).
    rewrite Hnil in Hneeded. by apply elem_of_nil in Hneeded.
  - specialize (Hneeded c0 Hin Htable).
    destruct cols as [|c1 cols], aggs as [|a1 aggs];
      [by apply elem_of_nil in Hin| | |];
      cbn [pushProjections treeColumns narrow];
      (destruct (filter _ _) as [|n0 needed] eqn:Hf;
       [by apply elem_of_nil in Hneeded|done]).
Qed.

Lemma project_columns (table : string) cols needed (rows : list Row.t) :
  cols ≠ [] → needed ≠ [] →
  (∀ c, c ∈ cols → col_table c = table ∧ c ∈ needed) →
  shape [table] <$> project cols [] (project needed [] (wrap table <$> rows))
  = (λ row, FlatRow (keepColumns cols (Row.payload row))) <$> rows.
Proof.
  intros Hc Hn Hcols.
  destruct cols as [|c0 cols]; [done|]. destruct needed as [|n0 needed]; [done|].
  cbn [project]. rewrite <- !list_fmap_compose.
  apply list_fmap_ext. intros i row _. cbn [compose]. unfold wrap.
  rewrite !restrict_wrap. cbn [shape]. rewrite lookup_total_singleton_eq. f_equal.
  rewrite map_filter_filter_l by (intros k v _ Hin; by apply Hcols).
  apply keepColumns_table. intros. by apply Hcols.
Qed.

Lemma keepColumns_lookup cols (m : gmap string Value) (k : string) :
  keepColumns cols m !! k = if decide (k ∈ col_name <$> cols) then m !! k else None.
Proof.
  unfold keepColumns. rewrite map_lookup_filter.
  destruct (m !! k) as [v|]; simpl; [|by case_decide].
  case_decide.
  - by rewrite option_guard_True.
  - by rewrite option_guard_False.
Qed.

(** X18. A select of columns of one table answers with one row per row
    of the table, the rows of the table each cut down to the columns
    asked for (in some order); so a row of the answer carries the
    columns asked for, with the values of its row, and no other
    column. *)
Theorem select_columns_only g s (table : string) cols specs :
  cols ≠ [] →
  (∀ c, c ∈ cols → col_table c = table) →
  ∃ rows,
    outcome (select_exec (DefaultQueryEngine_new g)
               (mkSelect table [] [] None cols [] specs None None)) s rows ∧
    length rows = structs_Map.getCount (MemoryTable.data_ (s !!! table)) ∧
    rows ≡ₚ (λ row, FlatRow (keepColumns cols (Row.payload row)))
            <$> tableRows s table ∧
    ∀ res, res ∈ rows →
      ∃ row m, MemoryTable.stored (s !!! table) row ∧ res = FlatRow m ∧
        ∀ k, m !! k = if decide (k ∈ col_name <$> cols)
                      then Row.payload row !! k else None.
Proof.
  intros Hc Hcols.
  eexists. split; [apply select_exec_outcome|].
  match goal with |- context [length ?l] =>
    assert (l ≡ₚ (λ row, FlatRow (keepColumns cols (Row.payload row)))
                 <$> tableRows s table) as Hperm
  end.
  { rewrite plan_tables. unfold scope. cbn [from from_more joins fmap list_fmap app].
    unfold LogicalPlanFactory_create, initialTree.
    cbn [where_ columns aggregators orderBy skip limit accessTree from from_more
         joins foldl].
    assert (∀ extra,
      shape [table] <$> relationOf s (PhysicalPlanFactory_create g
        (pushProjections extra (LProject cols [] (LTableAccess table))))
      = (λ row, FlatRow (keepColumns cols (Row.payload row)))
        <$> tableRows s table) as Hshape.
    { intros extra.
      destruct (projected_plan g s table cols [] extra) as (needed & Hne & Hin & ->).
      - destruct cols as [|c0 cols]; [done|]. exists c0.
        split; [by left|]. apply Hcols. by left.
      - apply project_columns; try done.
        intros c Hin'. split; [by apply Hcols|]. apply Hin; [|by apply Hcols].
        apply elem_of_app. by left. }
    destruct specs as [|spec specs].
    - cbn [pushDownSelects inferJoins]. by rewrite Hshape.
    - cbn [pushDownSelects inferJoins pushProjections PhysicalPlanFactory_create
           relationOf].
      rewrite <- (Hshape ((spec :: specs).*1 ++ [])).
      apply fmap_Permutation, stableSort_perm. }
  split; [|split; [done|]].
  - rewrite Hperm, length_fmap. apply getValues_length.
  - intros res Hres. rewrite Hperm in Hres.
    apply list_elem_of_fmap in Hres as (row & -> & Hrow).
    exists row, (keepColumns cols (Row.payload row)).
    split; [by apply getValues_elem|]. split; [done|].
    intros k. apply keepColumns_lookup.
Qed.

Lemma select_columns_only_witness :
  ∃ rows,
    outcome (select_exec (DefaultQueryEngine_new Sample.bare)
               (mkSelect "Job" [] [] None [Sample.j "id"; Sample.j "title"] []
                         [] None None)) Sample.db rows ∧
    length rows = structs_Map.getCount (MemoryTable.data_ (Sample.db !!! "Job")) ∧
    rows ≡ₚ (λ row, FlatRow (keepColumns [Sample.j "id"; Sample.j "title"]
                               (Row.payload row)))
            <$> tableRows Sample.db "Job" ∧
    ∀ res, res ∈ rows →
      ∃ row m, MemoryTable.stored (Sample.db !!! "Job") row ∧ res = FlatRow m ∧
        ∀ k, m !! k = if decide (k ∈ col_name <$> [Sample.j "id"; Sample.j "title"])
                      then Row.payload row !! k else None.
Proof.
  apply (select_columns_only Sample.bare Sample.db "Job"
           [Sample.j "id"; Sample.j "title"] []).
  - discriminate.
  - intros c Hin. apply elem_of_cons in Hin as [->|Hin]; [reflexivity|].
    apply list_elem_of_singleton in Hin as ->. reflexivity.
Defined.

Lemma annotateAll_empty aggs L (table : string) :
  (∀ a, a ∈ aggs → col_table (agg_col a) = table) →
  annotateAll aggs L ∅ !!! table = withScalars aggs L ∅.
Proof.
  induction aggs as [|a aggs IH]; intros Hyp.
  - simpl. by rewrite lookup_total_empty.
  - simpl. unfold annotate. rewrite (Hyp a) by left.
    rewrite lookup_total_insert_eq. by rewrite IH by (intros; apply Hyp; by right).
Qed.

Lemma withScalars_dom aggs L (m : gmap string Value) :
  dom (withScalars aggs L m) =@{gset string} list_to_set (aggName <$> aggs) ∪ dom m.
Proof.
  induction aggs as [|a aggs IH]; simpl.
  - by rewrite (left_id_L ∅ (∪)).
  - by rewrite dom_insert_L, IH, (assoc_L (∪)).
Qed.

(** X19. A select of aggregators alone, over one table, answers with a
    single row; the row carries the scalars of the aggregators over the
    whole table, under their names, and nothing else. *)
Theorem select_aggregators_only g s (table : string) aggs :
  aggs ≠ [] →
  (∀ a, a ∈ aggs → col_table (agg_col a) = table) →
  ∃ m,
    outcome (select_exec (DefaultQueryEngine_new g)
               (mkSelect table [] [] None [] aggs [] None None)) s [FlatRow m] ∧
    (∀ k, is_Some (m !! k) ↔ k ∈ aggName <$> aggs) ∧
    (NoDup (aggName <$> aggs) →
     size m = length aggs ∧
     ∀ a, a ∈ aggs →
          m !! aggName a
          = Some (evalAggregator a (wrap table <$> tableRows s table))).
Proof.
  intros Ha Haggs.
  exists (withScalars aggs (wrap table <$> tableRows s table) ∅).
  split; [|split].
  - pose proof (select_exec_outcome g s
                  (mkSelect table [] [] None [] aggs [] None None)) as Hrun.
    cbn zeta in Hrun.
    match type of Hrun with outcome _ _ ?l =>
      replace l with [FlatRow (withScalars aggs (wrap table <$> tableRows s table) ∅)]
        in Hrun; [exact Hrun|]
    end.
    rewrite plan_tables. unfold scope. cbn [from from_more joins fmap list_fmap app].
    unfold LogicalPlanFactory_create, initialTree.
    cbn [where_ columns aggregators orderBy skip limit accessTree from from_more
         joins foldl pushDownSelects inferJoins].
    destruct (projected_plan g s table [] aggs []) as (needed & Hne & Hin & ->).
    { destruct aggs as [|a0 aggs]; [done|]. exists (agg_col a0).
      split; [by left|]. apply Haggs. by left. }
    destruct aggs as [|a0 aggs]; [done|]. destruct needed as [|n0 needed]; [done|].
    cbn [project list_fmap fmap shape]. f_equal. f_equal.
    rewrite annotateAll_empty by done.
    symmetry. apply withScalars_ext. intros a Hmem.
    apply evalAggregator_restrict. apply Hin; [|by apply Haggs].
    cbn [app]. apply list_elem_of_fmap. by exists a.
  - intros k. rewrite <- elem_of_dom, withScalars_dom, dom_empty_L.
    rewrite (right_id_L ∅ (∪)), elem_of_list_to_set. done.
  - intros Hnd. split.
    + rewrite <- (size_dom (D := gset string)), withScalars_dom, dom_empty_L.
      rewrite (right_id_L ∅ (∪)), size_list_to_set by done. apply length_fmap.
    + intros a Hin. by apply withScalars_scalar.
Qed.

Lemma select_aggregators_only_witness :
  ∃ m,
    outcome (select_exec (DefaultQueryEngine_new Sample.bare)
               (mkSelect "Job" [] [] None []
                  [mkAggregator MAX (Sample.j "maxSalary") false; Sample.minMaxSalary]
                  [] None None)) Sample.db [FlatRow m] ∧
    (∀ k, is_Some (m !! k)
          ↔ k ∈ aggName <$> [mkAggregator MAX (Sample.j "maxSalary") false;
                             Sample.minMaxSalary]) ∧
    (NoDup (aggName <$> [mkAggregator MAX (Sample.j "maxSalary") false;
                         Sample.minMaxSalary]) →
     size m = length [mkAggregator MAX (Sample.j "maxSalary") false;
                      Sample.minMaxSalary] ∧
     ∀ a, a ∈ [mkAggregator MAX (Sample.j "maxSalary") false; Sample.minMaxSalary] →
          m !! aggName a
          = Some (evalAggregator a (wrap "Job" <$> tableRows Sample.db "Job"))).
Proof.
  apply (select_aggregators_only Sample.bare Sample.db "Job"
           [mkAggregator MAX (Sample.j "maxSalary") false; Sample.minMaxSalary]).
  - discriminate.
  - intros a Hin. apply elem_of_cons in Hin as [->|Hin]; [reflexivity|].
    apply list_elem_of_singleton in Hin as ->. reflexivity.
Defined.

Lemma precedes_one c o a b :
  precedes [(c, o)] a b →
  match o with
  | DESC => valueLe (getVal b c) (getVal a c)
  | ASC => valueLe (getVal a c) (getVal b c)
  end.
Proof.
  unfold precedes, valueLe. cbn [compareEntries]. destruct o; cbn [directed].
  - by destruct (compareValue (getVal a c) (getVal b c)).
  - rewrite (compareValue_antisym (getVal a c) (getVal b c)).
    by destruct (compareValue (getVal a c) (getVal b c)).
Qed.

(** X20. A select ordered by one column answers with rows in the order
    asked for on that column.  When it selects all the columns, its rows
    are those of the same select without order-by, skip and limit,
    sorted, rows of equal value left in their order, and then skipped
    and cut.  Over a single table with numbers in the column, the rows
    are rows of the table, as many as the table holds when nothing is
    filtered, skipped or cut, and [assertOrder] passes on them. *)
Theorem order_by_one_column g s q c o :
  orderBy q = [(c, o)] → col_table c ∈ scope q →
  ∃ rows,
    outcome (select_exec (DefaultQueryEngine_new g) q) s rows ∧
    ordered (λ a b, match o with
                    | DESC => valueLe (rowValue b c) (rowValue a c)
                    | ASC => valueLe (rowValue a c) (rowValue b c)
                    end) rows ∧
    (columns q = [] → aggregators q = [] →
     ∃ unsorted sorted,
       outcome (select_exec (DefaultQueryEngine_new g) (unordered q)) s unsorted ∧
       sorted ≡ₚ unsorted ∧
       ordered (λ a b, match o with
                       | DESC => valueLe (rowValue b c) (rowValue a c)
                       | ASC => valueLe (rowValue a c) (rowValue b c)
                       end) sorted ∧
       (∀ v, filter (λ res, rowValue res c = v) sorted
             = filter (λ res, rowValue res c = v) unsorted) ∧
       rows = bounded q sorted) ∧
    (columns q = [] → aggregators q = [] → from_more q = [] → joins q = [] →
     (∀ row, MemoryTable.stored (s !!! from q) row →
        ∃ z, Row.payload row !! col_name c = Some (VInt z)) →
     (∃ sorted,
        sorted ≡ₚ (λ row, FlatRow (Row.payload row))
                  <$> filter (kept q) (tableRows s (from q)) ∧
        rows = bounded q sorted) ∧
     (where_ q = None → skip q = None → limit q = None →
      length rows = structs_Map.getCount (MemoryTable.data_ (s !!! from q))) ∧
     assertOrder rows c o = Some true).
Proof.
  intros Ho Hin. eexists. split; [apply select_exec_outcome|].
  assert (∀ a b : RelationEntry,
            precedes [(c, o)] a b →
            match o with
            | DESC => valueLe (rowValue (shape (scope q) b) c)
                              (rowValue (shape (scope q) a) c)
            | ASC => valueLe (rowValue (shape (scope q) a) c)
                             (rowValue (shape (scope q) b) c)
            end) as Hone.
  { intros a b Hab. rewrite !rowValue_shape by done. by apply precedes_one. }
  match goal with |- ?P ∧ _ => assert P as Hord end.
  { rewrite plan_tables.
    eapply ordered_fmap; [|apply plan_ordered; by rewrite Ho].
    intros a b Hab. rewrite Ho in Hab. by apply Hone. }
  split; [done|]. split.
  - intros Hc Ha.
    destruct (star_sorted_rows g s q Hc Ha) as (rel & Hrun & Hrows);
      [by rewrite Ho|].
    exists (shape (scope q) <$> rel),
           (shape (scope q) <$> stableSort (precedes (orderBy q)) rel).
    split; [done|]. split; [apply fmap_Permutation, stableSort_perm|].
    split; [|split; [|done]].
    + eapply ordered_fmap; [|apply StronglySorted_ordered, stableSort_sorted;
                               [apply precedes_total|apply precedes_trans]].
      intros a b Hab. rewrite Ho in Hab. by apply Hone.
    + intros v. rewrite !filter_fmap_pre. f_equal.
      apply stableSort_filter. intros a b Ha' Hb'.
      rewrite !rowValue_shape in * by done.
      rewrite Ho. unfold precedes. cbn [compareEntries].
      rewrite Ha', Hb', compareValue_refl. by destruct o.
  - intros Hc Ha Hm Hj Hnum.
    destruct (single_table_sorted g s q Hc Ha Hm Hj) as (sorted & Hperm & Hrows).
    pose proof (bounded_stored s q sorted _ Hperm Hrows) as Hstored.
    split; [by exists sorted|]. split.
    + intros Hw Hs Hl. rewrite Hrows, bounded_whole, Hperm, length_fmap by done.
      rewrite filter_all by (intros row; unfold kept; by rewrite Hw).
      apply getValues_length.
    + apply assertOrder_numbers; [|done].
      intros res (row & Hrow & ->)%Hstored.
      destruct (Hnum row Hrow) as (z & Hz). eauto.
Qed.

Lemma order_by_one_column_witness :
  ∃ rows,
    outcome (select_exec (DefaultQueryEngine_new Sample.bare) Sample.jobsByMinSalary)
            Sample.db rows ∧
    ordered (λ a b, valueLe (rowValue a (Sample.j "minSalary"))
                            (rowValue b (Sample.j "minSalary"))) rows ∧
    (columns Sample.jobsByMinSalary = [] → aggregators Sample.jobsByMinSalary = [] →
     ∃ unsorted sorted,
       outcome (select_exec (DefaultQueryEngine_new Sample.bare)
                  (unordered Sample.jobsByMinSalary)) Sample.db unsorted ∧
       sorted ≡ₚ unsorted ∧
       ordered (λ a b, valueLe (rowValue a (Sample.j "minSalary"))
                               (rowValue b (Sample.j "minSalary"))) sorted ∧
       (∀ v, filter (λ res, rowValue res (Sample.j "minSalary") = v) sorted
             = filter (λ res, rowValue res (Sample.j "minSalary") = v) unsorted) ∧
       rows = bounded Sample.jobsByMinSalary sorted) ∧
    (columns Sample.jobsByMinSalary = [] → aggregators Sample.jobsByMinSalary = [] →
     from_more Sample.jobsByMinSalary = [] → joins Sample.jobsByMinSalary = [] →
     (∀ row, MemoryTable.stored (Sample.db !!! from Sample.jobsByMinSalary) row →
        ∃ z, Row.payload row !! col_name (Sample.j "minSalary") = Some (VInt z)) →
     (∃ sorted,
        sorted ≡ₚ (λ row, FlatRow (Row.payload row))
                  <$> filter (kept Sample.jobsByMinSalary)
                             (tableRows Sample.db (from Sample.jobsByMinSalary)) ∧
        rows = bounded Sample.jobsByMinSalary sorted) ∧
     (where_ Sample.jobsByMinSalary = None → skip Sample.jobsByMinSalary = None →
      limit Sample.jobsByMinSalary = None →
      length rows
      = structs_Map.getCount
          (MemoryTable.data_ (Sample.db !!! from Sample.jobsByMinSalary))) ∧
     assertOrder rows (Sample.j "minSalary") ASC = Some true).
Proof.
  apply (order_by_one_column Sample.bare Sample.db Sample.jobsByMinSalary
           (Sample.j "minSalary") ASC).
  - reflexivity.
  - vm_compute. left.
Defined.

(** X21. A select over a table joined to a second one, with a where
    clause, answers with the pairs of a row of each table on which the
    predicate of the join and the where clause are both true, each pair
    as a row of two payloads, and with nothing else. *)
Theorem explicit_join_pairs g s (t1 t2 : string) (jp p : Predicate) :
  ∃ rows,
    outcome (select_exec (DefaultQueryEngine_new g)
               (mkSelect t1 [] [(t2, jp)] (Some p) [] [] [] None None)) s rows ∧
    length rows
    = length (filter (λ pair, evaluate jp (merge (wrap t1 pair.1) (wrap t2 pair.2)) ∧
                              evaluate p (merge (wrap t1 pair.1) (wrap t2 pair.2)))
                     (a ← tableRows s t1; pair a <$> tableRows s t2)) ∧
    ∀ res, res ∈ rows ↔
      ∃ a b, MemoryTable.stored (s !!! t1) a ∧ MemoryTable.stored (s !!! t2) b ∧
             evaluate jp (merge (wrap t1 a) (wrap t2 b)) ∧
             evaluate p (merge (wrap t1 a) (wrap t2 b)) ∧
             res = CompositeRow (merge (wrap t1 a) (wrap t2 b)).
Proof.
  eexists. split; [apply select_exec_outcome|].
  set (both := λ pair : Row.t * Row.t,
         evaluate jp (merge (wrap t1 pair.1) (wrap t2 pair.2)) ∧
         evaluate p (merge (wrap t1 pair.1) (wrap t2 pair.2))).
  match goal with |- context [length ?l = _] =>
    assert (l ≡ₚ (λ pair, CompositeRow (merge (wrap t1 pair.1) (wrap t2 pair.2)))
                 <$> filter both (a ← tableRows s t1; pair a <$> tableRows s t2))
      as Hperm
  end.
  { rewrite plan_tables, star_relation by done.
    unfold scope. cbn [from from_more joins fmap list_fmap app fst shape where_].
    unfold accessTree. cbn [from from_more joins foldl denote].
    unfold nestedLoop. rewrite list_filter_filter.
    assert (crossProduct (wrap t1 <$> tableRows s t1) (wrap t2 <$> tableRows s t2)
            = (λ pair, merge (wrap t1 pair.1) (wrap t2 pair.2))
              <$> (a ← tableRows s t1; pair a <$> tableRows s t2)) as ->.
    { unfold crossProduct. generalize (tableRows s t2) as rows2.
      intros rows2. induction (tableRows s t1) as [|a rows1 IH]; [done|].
      cbn [fmap list_fmap mbind list_bind]. fold (fmap (wrap t1) rows1).
      change (mbind ?f ?l) with (l ≫= f) in *.
      rewrite fmap_app, <- IH. f_equal.
      rewrite <- !list_fmap_compose. done. }
    rewrite filter_fmap_pre, <- list_fmap_compose.
    rewrite (list_filter_iff _ both) by (intros pair; unfold both; simpl; tauto).
    done. }
  split; [by rewrite Hperm, length_fmap|].
  intros res. rewrite Hperm, list_elem_of_fmap. split.
  - intros ([a b] & -> & [[Hj Hp] Hin]%list_elem_of_filter).
    apply list_elem_of_bind in Hin as (a' & Hb & Ha).
    apply list_elem_of_fmap in Hb as (b' & [= -> ->] & Hb).
    exists a', b'. split; [by apply getValues_elem|].
    split; [by apply getValues_elem|done].
  - intros (a & b & Ha & Hb & Hj & Hp & ->). exists (a, b). split; [done|].
    apply list_elem_of_filter. split; [done|].
    apply list_elem_of_bind. exists a. split; [|by apply getValues_elem].
    apply list_elem_of_fmap. exists b. split; [done|by apply getValues_elem].
Qed.

End select_more.

(** * The scalars of the aggregators *)

Section aggregators.
Implicit Types (a : Aggregator) (rel : Relation) (v m : Value) (vs : list Value).

Lemma valueLe_trans (u v w : Value) : valueLe u v → valueLe v w → valueLe u w.
Proof.
  unfold valueLe. intros Huv Hvw.
  destruct (compareValue u v) eqn:H1; [|clear Huv|done].
  { apply compareValue_eq in H1 as ->. done. }
  destruct (compareValue v w) eqn:H2; [|clear Hvw|done].
  { apply compareValue_eq in H2 as ->. by rewrite H1. }
  by rewrite (compareValue_lt_trans u v w).
Qed.

Lemma elem_of_aggValues a rel v :
  v ∈ aggValues a rel ↔
  v ≠ VAbsent ∧ ∃ e, e ∈ rel ∧ getVal e (agg_col a) = v.
Proof.
  unfold aggValues.
  assert (v ∈ filter (λ v, v ≠ VAbsent) ((λ e, getVal e (agg_col a)) <$> rel)
          ↔ v ≠ VAbsent ∧ ∃ e, e ∈ rel ∧ getVal e (agg_col a) = v) as Hin.
  { rewrite list_elem_of_filter, list_elem_of_fmap. split.
    - intros [Hv (e & -> & He)]. split; [done|]. by exists e.
    - intros [Hv (e & He & <-)]. split; [done|]. by exists e. }
  destruct (agg_distinct a); [by rewrite elem_of_remove_dups|done].
Qed.

Lemma least_loop vs m :
  let r := foldl (λ m x, if compareValue x m is Lt then x else m) m vs in
  (r = m ∨ r ∈ vs) ∧ valueLe r m ∧ ∀ v, v ∈ vs → valueLe r v.
Proof.
  revert m. induction vs as [|x vs IH]; intros m; cbn [foldl].
  - split; [by left|]. split; [apply valueLe_refl|]. by intros v ?%elem_of_nil.
  - set (m' := if compareValue x m is Lt then x else m).
    destruct (IH m') as (Hin & Hle & Hall). cbn zeta in *.
    assert (valueLe m' m ∧ valueLe m' x) as [Hm Hx].
    { unfold m', valueLe. destruct (compareValue x m) eqn:Hc.
      - apply compareValue_eq in Hc as ->. by rewrite compareValue_refl.
      - by rewrite Hc, compareValue_refl.
      - by rewrite compareValue_refl, (compareValue_antisym x m), Hc. }
    split; [|split].
    + destruct Hin as [->|Hin]; [|right; by right].
      unfold m'. destruct (compareValue x m); [by left|right; by left|by left].
    + by eapply valueLe_trans.
    + intros v [->|Hv]%elem_of_cons; [by eapply valueLe_trans|by apply Hall].
Qed.

Lemma greatest_loop vs m :
  let r := foldl (λ m x, if compareValue x m is Gt then x else m) m vs in
  (r = m ∨ r ∈ vs) ∧ valueLe m r ∧ ∀ v, v ∈ vs → valueLe v r.
Proof.
  revert m. induction vs as [|x vs IH]; intros m; cbn [foldl].
  - split; [by left|]. split; [apply valueLe_refl|]. by intros v ?%elem_of_nil.
  - set (m' := if compareValue x m is Gt then x else m).
    destruct (IH m') as (Hin & Hle & Hall). cbn zeta in *.
    assert (valueLe m m' ∧ valueLe x m') as [Hm Hx].
    { unfold m', valueLe. destruct (compareValue x m) eqn:Hc.
      - apply compareValue_eq in Hc as ->. by rewrite compareValue_refl.
      - by rewrite Hc, compareValue_refl.
      - by rewrite compareValue_refl, (compareValue_antisym x m), Hc. }
    split; [|split].
    + destruct Hin as [->|Hin]; [|right; by right].
      unfold m'. destruct (compareValue x m); [by left|by left|right; by left].
    + by eapply valueLe_trans.
    + intros v [->|Hv]%elem_of_cons; [by eapply valueLe_trans|by apply Hall].
Qed.

Lemma least_spec vs :
  (vs = [] ∧ least vs = VAbsent) ∨
  (least vs ∈ vs ∧ ∀ v, v ∈ vs → valueLe (least vs) v).
Proof.
  destruct vs as [|x vs]; [by left|right]. cbn [least].
  destruct (least_loop vs x) as (Hin & Hle & Hall). cbn zeta in *. split.
  - destruct Hin as [->|Hin]; [by left|by right].
  - by intros v [->|Hv]%elem_of_cons; [|apply Hall].
Qed.

Lemma greatest_spec vs :
  (vs = [] ∧ greatest vs = VAbsent) ∨
  (greatest vs ∈ vs ∧ ∀ v, v ∈ vs → valueLe v (greatest vs)).
Proof.
  destruct vs as [|x vs]; [by left|right]. cbn [greatest].
  destruct (greatest_loop vs x) as (Hin & Hle & Hall). cbn zeta in *. split.
  - destruct Hin as [->|Hin]; [by left|by right].
  - by intros v [->|Hv]%elem_of_cons; [|apply Hall].
Qed.

(** X22. The scalar of MIN over rows is a value of the column in one of
    the rows and is below or equal to the value in every row that has
    one; it is absent exactly when no row has a value. *)
Theorem min_is_least a rel :
  agg_fn a = MIN →
  (∀ e, e ∈ rel → getVal e (agg_col a) ≠ VAbsent →
        valueLe (evalAggregator a rel) (getVal e (agg_col a))) ∧
  (evalAggregator a rel ≠ VAbsent →
   ∃ e, e ∈ rel ∧ getVal e (agg_col a) = evalAggregator a rel) ∧
  (evalAggregator a rel = VAbsent ↔
   ∀ e, e ∈ rel → getVal e (agg_col a) = VAbsent).
Proof.
  intros Hfn. unfold evalAggregator. rewrite Hfn.
  destruct (least_spec (aggValues a rel)) as [[Hnil ->]|[Hin Hall]].
  - assert (∀ e, e ∈ rel → getVal e (agg_col a) = VAbsent) as Habs.
    { intros e He. destruct (decide (getVal e (agg_col a) = VAbsent)) as [|Hv]; [done|].
      assert (getVal e (agg_col a) ∈ aggValues a rel) as Hmem
        by (apply elem_of_aggValues; eauto).
      rewrite Hnil in Hmem. by apply elem_of_nil in Hmem. }
    split; [|split; [done|done]]. intros e He Hv. by rewrite Habs in Hv.
  - apply elem_of_aggValues in Hin as Hin'. destruct Hin' as [Hv (e0 & He0 & Heq)].
    split; [|split].
    + intros e He Hp. apply Hall, elem_of_aggValues. eauto.
    + intros _. by exists e0.
    + split; [done|]. intros Habs. by rewrite <- Heq, Habs in Hv.
Qed.

Lemma min_is_least_witness :
  (∀ e, e ∈ wrap "Job" <$> tableRows Sample.db "Job" →
        getVal e (agg_col Sample.minMaxSalary) ≠ VAbsent →
        valueLe (evalAggregator Sample.minMaxSalary
                   (wrap "Job" <$> tableRows Sample.db "Job"))
                (getVal e (agg_col Sample.minMaxSalary))) ∧
  (evalAggregator Sample.minMaxSalary (wrap "Job" <$> tableRows Sample.db "Job")
   ≠ VAbsent →
   ∃ e, e ∈ wrap "Job" <$> tableRows Sample.db "Job" ∧
        getVal e (agg_col Sample.minMaxSalary)
        = evalAggregator Sample.minMaxSalary
            (wrap "Job" <$> tableRows Sample.db "Job")) ∧
  (evalAggregator Sample.minMaxSalary (wrap "Job" <$> tableRows Sample.db "Job")
   = VAbsent ↔
   ∀ e, e ∈ wrap "Job" <$> tableRows Sample.db "Job" →
        getVal e (agg_col Sample.minMaxSalary) = VAbsent).
Proof.
  apply (min_is_least Sample.minMaxSalary (wrap "Job" <$> tableRows Sample.db "Job")).
  reflexivity.
Defined.

(** X23. The scalar of MAX over rows is a value of the column in one of
    the rows and is above or equal to the value in every row; it is
    absent exactly when no row has a value. *)
Theorem max_is_greatest a rel :
  agg_fn a = MAX →
  (∀ e, e ∈ rel → valueLe (getVal e (agg_col a)) (evalAggregator a rel)) ∧
  (evalAggregator a rel ≠ VAbsent →
   ∃ e, e ∈ rel ∧ getVal e (agg_col a) = evalAggregator a rel) ∧
  (evalAggregator a rel = VAbsent ↔
   ∀ e, e ∈ rel → getVal e (agg_col a) = VAbsent).
Proof.
  intros Hfn. unfold evalAggregator. rewrite Hfn.
  destruct (greatest_spec (aggValues a rel)) as [[Hnil ->]|[Hin Hall]].
  - assert (∀ e, e ∈ rel → getVal e (agg_col a) = VAbsent) as Habs.
    { intros e He. destruct (decide (getVal e (agg_col a) = VAbsent)) as [|Hv]; [done|].
      assert (getVal e (agg_col a) ∈ aggValues a rel) as Hmem
        by (apply elem_of_aggValues; eauto).
      rewrite Hnil in Hmem. by apply elem_of_nil in Hmem. }
    split; [|split; [done|done]]. intros e He. rewrite Habs by done.
    apply valueLe_refl.
  - apply elem_of_aggValues in Hin as Hin'. destruct Hin' as [Hv (e0 & He0 & Heq)].
    split; [|split].
    + intros e He. destruct (decide (getVal e (agg_col a) = VAbsent)) as [->|Hp].
      * unfold valueLe. by destruct (greatest (aggValues a rel)).
      * apply Hall, elem_of_aggValues. eauto.
    + intros _. by exists e0.
    + split; [done|]. intros Habs. by rewrite <- Heq, Habs in Hv.
Qed.

Lemma max_is_greatest_witness :
  (∀ e, e ∈ wrap "Job" <$> tableRows Sample.db "Job" →
        valueLe (getVal e (Sample.j "maxSalary"))
                (evalAggregator (mkAggregator MAX (Sample.j "maxSalary") false)
                   (wrap "Job" <$> tableRows Sample.db "Job"))) ∧
  (evalAggregator (mkAggregator MAX (Sample.j "maxSalary") false)
     (wrap "Job" <$> tableRows Sample.db "Job") ≠ VAbsent →
   ∃ e, e ∈ wrap "Job" <$> tableRows Sample.db "Job" ∧
        getVal e (Sample.j "maxSalary")
        = evalAggregator (mkAggregator MAX (Sample.j "maxSalary") false)
            (wrap "Job" <$> tableRows Sample.db "Job")) ∧
  (evalAggregator (mkAggregator MAX (Sample.j "maxSalary") false)
     (wrap "Job" <$> tableRows Sample.db "Job") = VAbsent ↔
   ∀ e, e ∈ wrap "Job" <$> tableRows Sample.db "Job" →
        getVal e (Sample.j "maxSalary") = VAbsent).
Proof.
  apply (max_is_greatest (mkAggregator MAX (Sample.j "maxSalary") false)
           (wrap "Job" <$> tableRows Sample.db "Job")).
  reflexivity.
Defined.

(** X24. The scalar of COUNT over the distinct values of a column is
    the number of different values that the rows have in the column;
    rows without a value count for nothing. *)
Theorem count_distinct_values a rel :
  agg_fn a = COUNT → agg_distinct a = true → col_name (agg_col a) ≠ "*" →
  evalAggregator a rel
  = VInt (Z.of_nat (size (list_to_set (C := gset Value)
                            (filter (λ v, v ≠ VAbsent)
                                    ((λ e, getVal e (agg_col a)) <$> rel))))).
Proof.
  intros Hfn Hd Hcol. unfold evalAggregator, aggValues. rewrite Hfn, Hd.
  rewrite decide_False by done. do 2 f_equal.
  rewrite <- (size_list_to_set (C := gset Value)) by apply NoDup_remove_dups.
  f_equal. apply set_eq. intros v.
  by rewrite !elem_of_list_to_set, elem_of_remove_dups.
Qed.

Lemma count_distinct_values_witness :
  evalAggregator (mkAggregator COUNT (Sample.j "maxSalary") true)
                 (wrap "Job" <$> tableRows Sample.db "Job")
  = VInt (Z.of_nat (size (list_to_set (C := gset Value)
                            (filter (λ v, v ≠ VAbsent)
                                    ((λ e, getVal e (Sample.j "maxSalary"))
                                       <$> (wrap "Job" <$> tableRows Sample.db "Job")))))).
Proof.
  apply (count_distinct_values (mkAggregator COUNT (Sample.j "maxSalary") true)
           (wrap "Job" <$> tableRows Sample.db "Job")).
  - reflexivity.
  - reflexivity.
  - discriminate.
Defined.

End aggregators.
